(** * Continuous-filter convolution layer ([pack/nn/cfconv.py])

    A shallow embedding of [CFConv.forward] and of the tensor operations it
    calls, followed by the properties of the layer.

    Tensors are modelled by value: a shape and the row-major list of the
    elements.  Strides and storage sharing are not part of the model, inputs
    are taken to be contiguous.  Element arithmetic is abstract (class
    [Scalar]); the laws a statement needs are named hypotheses of that
    statement.  The class has two instances: the integers, and the binary64
    floating-point numbers with their NaN and infinities. *)

From Stdlib Require Import List Arith ZArith Lia Bool.
From Stdlib Require Import PrimFloat.
Import ListNotations.

(** ** Errors and results *)

(** The exceptions a forward call can end with. *)
Inductive error : Type :=
| ShapeMismatch      (* RuntimeError: sizes do not match / cannot be viewed *)
| IndexOutOfRange    (* RuntimeError: gather index out of bounds *)
| DimOutOfRange      (* IndexError: too many indices, dimension out of range *)
| External.          (* raised inside a network supplied by the caller *)

Inductive result (A : Type) : Type :=
| Ok (a : A)
| Err (e : error).

Arguments Ok {A} a.
Arguments Err {A} e.

Definition bind {A B} (r : result A) (k : A -> result B) : result B :=
  match r with
  | Ok a => k a
  | Err e => Err e
  end.

Notation "x <- r ;; k" := (bind r (fun x => k))
  (at level 61, r at next level, right associativity).

(** ** Row-major index arithmetic *)

Fixpoint numel (sh : list nat) : nat :=
  match sh with
  | [] => 1
  | d :: ds => d * numel ds
  end.

Fixpoint ravel (sh idx : list nat) : nat :=
  match sh, idx with
  | _ :: ds, i :: js => i * numel ds + ravel ds js
  | _, _ => 0
  end.

Fixpoint unravel (sh : list nat) (n : nat) : list nat :=
  match sh with
  | [] => []
  | _ :: ds => n / numel ds :: unravel ds (n mod numel ds)
  end.

Fixpoint in_bounds (sh idx : list nat) : bool :=
  match sh, idx with
  | [], [] => true
  | d :: ds, i :: js => (i <? d) && in_bounds ds js
  | _, _ => false
  end.

(** ** Tensors *)

Record tensor (A : Type) : Type := mkT { shape : list nat; data : list A }.

Arguments mkT {A} shape data.
Arguments shape {A} t.
Arguments data {A} t.

Definition wf {A} (t : tensor A) : Prop := length (data t) = numel (shape t).

Class Default (A : Type) : Type := { dflt : A }.

(** The element at position [idx]. *)
Definition tget {A} `{Default A} (t : tensor A) (idx : list nat) : A :=
  nth (ravel (shape t) idx) (data t) dflt.

(** The tensor of shape [sh] whose element at position [idx] is [f idx]. *)
Definition tbuild {A} (sh : list nat) (f : list nat -> A) : tensor A :=
  mkT sh (map (fun n => f (unravel sh n)) (seq 0 (numel sh))).

(** ** Element arithmetic *)

(** The operations on tensor elements the layer uses.  [s_of_nat] turns a
    neighbour count into an element, [s_nonzero] tests an element against
    zero. *)
Class Scalar (R : Type) : Type := {
  s_zero : R;
  s_one : R;
  s_add : R -> R -> R;
  s_mul : R -> R -> R;
  s_div : R -> R -> R;
  s_of_nat : nat -> R;
  s_nonzero : R -> bool
}.

#[export] Instance Default_Scalar {R} `{Scalar R} : Default R :=
  {| dflt := s_zero |}.

(** Integers: the elements of index tensors, and exact arithmetic for the
    concrete scenario below (the quotient is rounded down). *)
#[export] Instance Scalar_Z : Scalar Z :=
  {| s_zero := 0%Z; s_one := 1%Z;
     s_add := Z.add; s_mul := Z.mul; s_div := Z.div;
     s_of_nat := Z.of_nat;
     s_nonzero := fun z => negb (z =? 0)%Z |}.

(** ** Tensor operations of the host library *)

Section TensorOps.
Context {A : Type} `{Default A}.

(** [t.size(k)], [t.shape[k]] *)
Definition size (t : tensor A) (k : nat) : result nat :=
  match nth_error (shape t) k with
  | Some d => Ok d
  | None => Err DimOutOfRange
  end.

(** [t.unsqueeze(-1)] *)
Definition unsqueeze_last (t : tensor A) : tensor A :=
  mkT (shape t ++ [1]) (data t).

(** Number of items the Python slice [:stop] keeps of [n] items. *)
Definition slice_len (n : nat) (stop : Z) : nat :=
  if (stop <? 0)%Z then Z.to_nat (Z.of_nat n + stop)
  else Nat.min n (Z.to_nat stop).

(** [t[:, :cut]] *)
Definition slice1 (t : tensor A) (cut : Z) : result (tensor A) :=
  match shape t with
  | d0 :: d1 :: ds => Ok (tbuild (d0 :: slice_len d1 cut :: ds) (tget t))
  | _ => Err DimOutOfRange
  end.

(** Product of the sizes given to [view], the [-1] left out. *)
Definition prod_known (sizes : list Z) : nat :=
  fold_right (fun s acc => if (s =? -1)%Z then acc else Z.to_nat s * acc) 1 sizes.

(** Shape inference of [view] for [n] elements.  Without [-1] the sizes must
    multiply to [n].  One [-1] stands for the quotient of [n] by the product
    of the other sizes; that product must be positive and divide [n]: when
    it is zero the missing size could be anything and the call raises, also
    for [n = 0]. *)
Definition infer_size (sizes : list Z) (n : nat) : result (list nat) :=
  if existsb (fun s => (s <? -1)%Z) sizes then Err ShapeMismatch
  else
    let newsize := prod_known sizes in
    match count_occ Z.eq_dec sizes (-1)%Z with
    | 0 => if n =? newsize then Ok (map Z.to_nat sizes) else Err ShapeMismatch
    | 1 =>
        if (0 <? newsize) && (n mod newsize =? 0)
        then Ok (map (fun s => if (s =? -1)%Z then n / newsize else Z.to_nat s) sizes)
        else Err ShapeMismatch
    | _ => Err ShapeMismatch
    end.

(** [t.view(sizes)] *)
Definition view (t : tensor A) (sizes : list Z) : result (tensor A) :=
  sh <- infer_size sizes (numel (shape t)) ;;
  Ok (mkT sh (data t)).

(** Index read by position [idx] of a broadcast result in an operand of
    shape [sh]: leading dimensions the operand lacks are dropped, a
    dimension of extent 1 is read at 0. *)
Definition bcast_index (sh idx : list nat) : list nat :=
  map (fun di => if fst di =? 1 then 0 else snd di)
      (combine sh (skipn (length idx - length sh) idx)).

Definition expand_dim (d : nat) (s : Z) : result nat :=
  if (s =? -1)%Z then Ok d
  else if (s <? 0)%Z then Err ShapeMismatch
  else if Z.to_nat s =? d then Ok d
  else if d =? 1 then Ok (Z.to_nat s)
  else Err ShapeMismatch.

(** Shapes are matched from the last dimension, both lists reversed. *)
Fixpoint expand_rev (rsh : list nat) (rsizes : list Z) : result (list nat) :=
  match rsh, rsizes with
  | [], [] => Ok []
  | [], s :: ss =>
      if (s <? 0)%Z then Err ShapeMismatch
      else r <- expand_rev [] ss ;; Ok (Z.to_nat s :: r)
  | d :: ds, s :: ss =>
      x <- expand_dim d s ;; r <- expand_rev ds ss ;; Ok (x :: r)
  | _ :: _, [] => Err ShapeMismatch
  end.

(** [t.expand(sizes)] *)
Definition expand (t : tensor A) (sizes : list Z) : result (tensor A) :=
  r <- expand_rev (rev (shape t)) (rev sizes) ;;
  Ok (tbuild (rev r) (fun idx => tget t (bcast_index (shape t) idx))).

Definition broadcast_dim (x y : nat) : result nat :=
  if x =? y then Ok x
  else if x =? 1 then Ok y
  else if y =? 1 then Ok x
  else Err ShapeMismatch.

Fixpoint broadcast_rev (a b : list nat) : result (list nat) :=
  match a, b with
  | [], r => Ok r
  | r, [] => Ok r
  | x :: a', y :: b' =>
      d <- broadcast_dim x y ;; r <- broadcast_rev a' b' ;; Ok (d :: r)
  end.

Definition broadcast_shapes (a b : list nat) : result (list nat) :=
  r <- broadcast_rev (rev a) (rev b) ;; Ok (rev r).

(** Elementwise binary operation with broadcasting ([t * u], [t / u]). *)
Definition map2b (op : A -> A -> A) (t u : tensor A) : result (tensor A) :=
  sh <- broadcast_shapes (shape t) (shape u) ;;
  Ok (tbuild sh (fun idx =>
        op (tget t (bcast_index (shape t) idx))
           (tget u (bcast_index (shape u) idx)))).

Definition replace_at (k v : nat) (l : list nat) : list nat :=
  firstn k l ++ v :: skipn (S k) l.

Definition remove_at (k : nat) (l : list nat) : list nat :=
  firstn k l ++ skipn (S k) l.

Definition insert_at (k v : nat) (l : list nat) : list nat :=
  firstn k l ++ v :: skipn k l.

(** Every dimension of the index but [dim] fits in the input. *)
Fixpoint gather_shape_ok (ish xsh : list nat) (dim : nat) : bool :=
  match ish, xsh with
  | [], [] => true
  | i :: ish', x :: xsh' =>
      match dim with
      | 0 => forallb (fun p => fst p <=? snd p) (combine ish' xsh')
      | S dim' => (i <=? x) && gather_shape_ok ish' xsh' dim'
      end
  | _, _ => false
  end.

(** [torch.gather(input, dim, index)]:
    [out[..., j, ...] = input[..., index[..., j, ...], ...]], the index
    replaced at position [dim].  An empty index gives an empty result
    before any check. *)
Definition gather (input : tensor A) (dim : nat) (index : tensor Z)
  : result (tensor A) :=
  if numel (shape index) =? 0 then Ok (mkT (shape index) [])
  else if negb (length (shape index) =? length (shape input)) then Err ShapeMismatch
  else if negb (dim <? length (shape input)) then Err DimOutOfRange
  else if negb (gather_shape_ok (shape index) (shape input) dim) then Err ShapeMismatch
  else if negb (forallb (fun v => (0 <=? v)%Z && (v <? Z.of_nat (nth dim (shape input) 0%nat))%Z)
                        (data index))
  then Err IndexOutOfRange
  else Ok (tbuild (shape index) (fun idx =>
             tget input (replace_at dim (Z.to_nat (tget index idx)) idx))).

(** Reduction of one axis by [g], the reduced axis kept with extent 1 or
    dropped. *)
Definition reduce_axis {B} (g : list A -> B) (t : tensor A) (axis : nat)
           (keepdim : bool) : result (tensor B) :=
  match nth_error (shape t) axis with
  | None => Err DimOutOfRange
  | Some n =>
      if keepdim
      then Ok (tbuild (replace_at axis 1 (shape t)) (fun idx =>
                 g (map (fun j => tget t (replace_at axis j idx)) (seq 0 n))))
      else Ok (tbuild (remove_at axis (shape t)) (fun idx =>
                 g (map (fun j => tget t (insert_at axis j idx)) (seq 0 n))))
  end.
End TensorOps.

(** ** The layer *)

Section Layer.
Context {R : Type} `{Scalar R}.

(** Sum of a list of elements, accumulated from zero, left to right. *)
Definition ssum (l : list R) : R := fold_left s_add l s_zero.

(** *** [Dense] (pack.nn) *)

(** Modelled from the spec: the class [Dense] of [pack.nn] is not among the
    sources.  Sections 4.1 and 4.7: a linear map on the last axis, from
    [in_features] to [out_features], with an optional bias and an optional
    activation applied after the linear transform. *)
Record Dense : Type := mkDense {
  in_features : nat;
  out_features : nat;
  weight : list (list R);          (* out_features rows of in_features *)
  bias : option (list R);
  activation : option (R -> R)
}.

(** Modelled from the spec: output feature [o] of [Dense] for one input row
    [x] (sections 4.1, 4.7): the weighted sum, plus the bias if there is
    one, through the activation if there is one. *)
Definition dense_row (self : Dense) (x : nat -> R) (o : nat) : R :=
  let lin := ssum (map (fun i => s_mul (x i) (nth i (nth o (weight self) []) s_zero))
                       (seq 0 (in_features self))) in
  let lin := match bias self with
             | Some b => s_add lin (nth o b s_zero)
             | None => lin
             end in
  match activation self with
  | Some a => a lin
  | None => lin
  end.

(** Modelled from the spec: [Dense.forward], the map of [dense_row] over
    every row of the last axis; the last extent of the input must be
    [in_features]. *)
Definition Dense_forward (self : Dense) (x : tensor R) : result (tensor R) :=
  match rev (shape x) with
  | [] => Err ShapeMismatch
  | d :: lead =>
      if d =? in_features self
      then Ok (tbuild (rev lead ++ [out_features self]) (fun idx =>
                 dense_row self (fun i => tget x (removelast idx ++ [i])) (last idx 0)))
      else Err ShapeMismatch
  end.

(** *** [Aggregate] (pack.nn.base) *)

(** Modelled from the spec: the class [Aggregate] of [pack.nn.base] is not
    among the sources.  Section 4.6: the mask is multiplied in, the
    neighbour axis is summed; in mean mode the sum is divided by the count
    of non-zero mask entries of the atom, floored at one. *)
Record Aggregate : Type := mkAggregate {
  agg_axis : nat;
  agg_mean : bool
}.

(** Modelled from the spec: the count of non-zero mask entries
    (section 4.6). *)
Definition count_nonzero (l : list R) : nat := length (filter s_nonzero l).

(** Modelled from the spec: [Aggregate.forward] (section 4.6).  The mask,
    with a trailing axis of extent 1, is multiplied in; the axis is summed;
    in mean mode the sum is divided by the count of non-zero mask entries
    along the axis, floored at one. *)
Definition Aggregate_forward (self : Aggregate) (input mask : tensor R)
  : result (tensor R) :=
  masked <- map2b s_mul input (unsqueeze_last mask) ;;
  y <- reduce_axis ssum masked (agg_axis self) false ;;
  if agg_mean self then
    N <- reduce_axis (fun l => s_of_nat (Nat.max 1 (count_nonzero l)))
                     mask (agg_axis self) true ;;
    map2b s_div y N
  else Ok y.

(** *** [CFConv] *)

(** A network supplied by the caller: a function on tensors that may
    raise. *)
Definition network : Type := tensor R -> result (tensor R).

Record CFConv : Type := mkCFConv {
  in2f : Dense;
  f2out : Dense;
  filter_network : network;
  cutoff_network : option network;
  agg : Aggregate
}.

(** [CFConv.__init__]; the weights the two [Dense] layers are created with
    are arguments. *)
Definition CFConv_init (n_in n_filters n_out : nat)
           (filter_network : network) (cutoff_network : option network)
           (activation : option (R -> R)) (normalize_filter : bool) (axis : nat)
           (w_in2f w_f2out : list (list R)) (b_f2out : list R) : CFConv :=
  {| in2f := mkDense n_in n_filters w_in2f None None;
     f2out := mkDense n_filters n_out w_f2out (Some b_f2out) activation;
     filter_network := filter_network;
     cutoff_network := cutoff_network;
     agg := mkAggregate axis normalize_filter |}.

(** Lines 51-62: the resolved [cut] and the filter [W]. *)
Definition resolve_cut (x : tensor R) (cut : option Z) : result Z :=
  match cut with
  | None => n <- size x 1 ;; Ok (Z.of_nat n)
  | Some c => Ok c
  end.

Definition filter_stage (self : CFConv) (r_ij : tensor R)
           (f_ij : option (tensor R)) (cut : Z) : result (tensor R) :=
  let f_ij := match f_ij with
              | None => unsqueeze_last r_ij
              | Some f => f
              end in
  fc <- slice1 f_ij cut ;;
  W <- filter_network self fc ;;
  match cutoff_network self with
  | None => Ok W
  | Some cutoff =>
      rc <- slice1 r_ij cut ;;
      C <- cutoff rc ;;
      map2b s_mul W (unsqueeze_last C)
  end.

(** Lines 67-72: the features of the neighbours, gathered from the
    projected features [y] of all atoms. *)
Definition gather_stage (y : tensor R) (neighbors : tensor Z) (cut : Z)
  : result (tensor R) :=
  nc <- slice1 neighbors cut ;;
  n1 <- size nc 1 ;;
  n2 <- size nc 2 ;;
  nbh <- view nc [(-1)%Z; Z.of_nat (n1 * n2); 1%Z] ;;
  f <- size y 2 ;;
  nbh <- expand nbh [(-1)%Z; (-1)%Z; Z.of_nat f] ;;
  y <- gather y 1 nbh ;;
  n0 <- size nc 0 ;;
  view y [Z.of_nat n0; Z.of_nat n1; Z.of_nat n2; (-1)%Z].

(** Lines 65-75: input projection, gather, product with the filter [W],
    masked aggregation.  The two sub-layers used are arguments. *)
Definition convolution (proj : Dense) (aggr : Aggregate) (W x : tensor R)
           (neighbors : tensor Z) (pairwise_mask : tensor R) (cut : Z)
  : result (tensor R) :=
  y <- Dense_forward proj x ;;
  y <- gather_stage y neighbors cut ;;
  yc <- slice1 y cut ;;
  Wc <- slice1 W cut ;;
  y <- map2b s_mul yc Wc ;;
  mc <- slice1 pairwise_mask cut ;;
  Aggregate_forward aggr y mc.

(** Lines 51-75: the value aggregated over the neighbours, before the
    output projection. *)
Definition aggregated (self : CFConv) (x r_ij : tensor R) (neighbors : tensor Z)
           (pairwise_mask : tensor R) (f_ij : option (tensor R)) (cut : option Z)
  : result (tensor R) :=
  cut <- resolve_cut x cut ;;
  W <- filter_stage self r_ij f_ij cut ;;
  convolution (in2f self) (agg self) W x neighbors pairwise_mask cut.

(** [CFConv.forward] *)
Definition forward (self : CFConv) (x r_ij : tensor R) (neighbors : tensor Z)
           (pairwise_mask : tensor R) (f_ij : option (tensor R)) (cut : option Z)
  : result (tensor R) :=
  y <- aggregated self x r_ij neighbors pairwise_mask f_ij cut ;;
  Dense_forward (f2out self) y.
End Layer.

(** ** What a tensor-valued computation returns *)

(** [returns r sh f]: [r] is a tensor of shape [sh], well formed, whose
    element at every position [idx] of that shape is [f idx]. *)
Definition returns {A} `{Default A} (r : result (tensor A)) (sh : list nat)
           (f : list nat -> A) : Prop :=
  exists t, r = Ok t /\ shape t = sh /\ wf t /\
            forall idx, in_bounds sh idx = true -> tget t idx = f idx.

(** ** Entry-wise description of the layer *)

Section ClosedForm.
Context {R : Type} `{Scalar R}.

(** Feature [f] of atom [j] of batch [b] after the input projection. *)
Definition projected (self : @CFConv R) (x : tensor R) (b j f : nat) : R :=
  dense_row (in2f self) (fun i => tget x [b; j; i]) f.

(** Sum over the [K] neighbour slots of atom [i]: projected feature of the
    neighbour, times the filter entry [Wf], times the mask entry. *)
Definition neighbour_sum (self : @CFConv R) (x : tensor R) (neighbors : tensor Z)
           (pairwise_mask : tensor R) (Wf : list nat -> R) (K b i f : nat) : R :=
  ssum (map (fun k =>
               s_mul (s_mul (projected self x b (Z.to_nat (tget neighbors [b; i; k])) f)
                            (Wf [b; i; k; f]))
                     (tget pairwise_mask [b; i; k]))
            (seq 0 K)).

(** Number of non-zero mask entries of atom [i]. *)
Definition neighbour_count (pairwise_mask : tensor R) (K b i : nat) : nat :=
  count_nonzero (map (fun k => tget pairwise_mask [b; i; k]) (seq 0 K)).

Definition aggregate_value (self : @CFConv R) (x : tensor R) (neighbors : tensor Z)
           (pairwise_mask : tensor R) (Wf : list nat -> R) (K b i f : nat) : R :=
  let S := neighbour_sum self x neighbors pairwise_mask Wf K b i f in
  if agg_mean (agg self)
  then s_div S (s_of_nat (Nat.max 1 (neighbour_count pairwise_mask K b i)))
  else S.

Definition output_value (self : @CFConv R) (x : tensor R) (neighbors : tensor Z)
           (pairwise_mask : tensor R) (Wf : list nat -> R) (K b i o : nat) : R :=
  dense_row (f2out self)
            (fun f => aggregate_value self x neighbors pairwise_mask Wf K b i f) o.

(** Inputs of consistent shapes: [B] batches, [N] atoms, [K] neighbour
    slots, every entry of the neighbour table an atom index. *)
Record valid_input (self : @CFConv R) (x r_ij : tensor R) (neighbors : tensor Z)
       (pairwise_mask : tensor R) (f_ij : option (tensor R)) (B N K : nat) : Prop := {
  vi_batch : 0 < B;
  vi_slots : 0 < K;
  vi_x : shape x = [B; N; in_features (in2f self)];
  vi_r : shape r_ij = [B; N; K];
  vi_n : shape neighbors = [B; N; K];
  vi_m : shape pairwise_mask = [B; N; K];
  vi_f : match f_ij with
         | None => True
         | Some f => exists G, shape f = [B; N; K; G]
         end;
  vi_idx : forall idx, in_bounds [B; N; K] idx = true ->
                       (0 <= tget neighbors idx < Z.of_nat N)%Z
}.

(** A layer of filter width [F]: the widths of the two projections agree
    with it, the neighbour axis is axis 2, and the supplied networks keep
    their contracts (sections 4.2 and 4.3): the filter network maps
    expanded distances of shape (b, c, k, g) to filters of shape
    (b, c, k, F), the cutoff network keeps the shape of its input. *)
Record valid_layer (self : @CFConv R) (F : nat) : Prop := {
  vl_in2f : out_features (in2f self) = F;
  vl_f2out : in_features (f2out self) = F;
  vl_axis : agg_axis (agg self) = 2;
  vl_filter : forall t b c k g,
      shape t = [b; c; k; g] ->
      exists W, filter_network self t = Ok W /\ shape W = [b; c; k; F] /\ wf W;
  vl_cutoff : forall cn, cutoff_network self = Some cn ->
      forall t, exists C, cn t = Ok C /\ shape C = shape t /\ wf C
}.
End ClosedForm.

(** ** Notions the properties are stated with *)

Section Notions.
Context {R : Type} `{Scalar R}.

(** Rows of the result along the atom axis for a tensor of [N] atoms. *)
Definition cut_rows (N : nat) (cut : option Z) : nat :=
  match cut with
  | None => N
  | Some c => slice_len N c
  end.

(** The explicit length that stands for [cut]. *)
Definition cut_value (N : nat) (cut : option Z) : Z :=
  match cut with
  | None => Z.of_nat N
  | Some c => c
  end.

(** A usable truncation length: absent, or non-negative, and in both cases
    leaving at least one row. *)
Definition valid_cut (N : nat) (cut : option Z) : Prop :=
  match cut with
  | None => True
  | Some c => (0 <= c)%Z
  end /\ 0 < cut_rows N cut.


Definition with_cutoff (self : @CFConv R) (cutoff : option network) : CFConv :=
  {| in2f := in2f self; f2out := f2out self;
     filter_network := filter_network self;
     cutoff_network := cutoff;
     agg := agg self |}.

(** The cutoff network that returns 1.0 for every pair. *)
Definition ones_network : @network R :=
  fun t => Ok (tbuild (shape t) (fun _ => s_one)).

(** A network acts per atom when, on per-pair inputs (rank three or more),
    truncating its input to the first rows truncates its output to the same
    rows. *)
Definition acts_per_atom (net : @network R) : Prop :=
  forall t m tm, 3 <= length (shape t) -> slice1 t m = Ok tm ->
                 net tm = (W <- net t ;; slice1 W m).

(** Truncation consistency at [m]: the call with [cut = m] returns the
    first [m] rows of what the call without [cut] returns. *)
Definition truncation_consistent (self : @CFConv R) (x r_ij : tensor R)
           (neighbors : tensor Z) (pairwise_mask : tensor R)
           (f_ij : option (tensor R)) (m : Z) : Prop :=
  forward self x r_ij neighbors pairwise_mask f_ij (Some m)
  = (full <- forward self x r_ij neighbors pairwise_mask f_ij None ;;
     slice1 full m).

(** *** Supplied networks with hidden state *)

(** A network supplied by the caller is a module of the host library: it may
    own buffers, counters, a random generator.  [S] is that hidden state; a
    call reads it and returns it, possibly changed. *)
Definition snetwork (S : Type) : Type := S -> tensor R -> result (tensor R) * S.

(** Computations that thread the hidden state and may raise. *)
Definition comp (S A : Type) : Type := S -> result A * S.

Definition lift {S A} (r : result A) : comp S A := fun s => (r, s).

Definition sbind {S A C} (c : comp S A) (k : A -> comp S C) : comp S C :=
  fun s => match c s with
           | (Ok a, s') => k a s'
           | (Err e, s') => (Err e, s')
           end.

(** The layer object with such networks. *)
Record SCFConv (S : Type) : Type := mkSCFConv {
  s_in2f : @Dense R;
  s_f2out : @Dense R;
  s_filter_network : snetwork S;
  s_cutoff_network : option (snetwork S);
  s_agg : Aggregate
}.

Arguments s_in2f {S} _.
Arguments s_f2out {S} _.
Arguments s_filter_network {S} _.
Arguments s_cutoff_network {S} _.
Arguments s_agg {S} _.

(** Lines 54-62, the state threaded through the two network calls. *)
Definition sfilter_stage {S} (self : SCFConv S) (r_ij : tensor R)
           (f_ij : option (tensor R)) (cut : Z) : comp S (tensor R) :=
  let f_ij := match f_ij with
              | None => unsqueeze_last r_ij
              | Some f => f
              end in
  sbind (lift (slice1 f_ij cut)) (fun fc =>
  sbind (fun s => s_filter_network self s fc) (fun W =>
  match s_cutoff_network self with
  | None => lift (Ok W)
  | Some cutoff =>
      sbind (lift (slice1 r_ij cut)) (fun rc =>
      sbind (fun s => cutoff s rc) (fun C =>
      lift (map2b s_mul W (unsqueeze_last C))))
  end)).

(** [CFConv.forward] as a call on the object: the result and the hidden
    state after the call.  No statement of the method assigns an attribute
    of [self]; the state can change inside the two network calls only. *)
Definition sforward {S} (self : SCFConv S) (x r_ij : tensor R)
           (neighbors : tensor Z) (pairwise_mask : tensor R)
           (f_ij : option (tensor R)) (cut : option Z) : comp S (tensor R) :=
  sbind (lift (resolve_cut x cut)) (fun cut =>
  sbind (sfilter_stage self r_ij f_ij cut) (fun W =>
  sbind (lift (convolution (s_in2f self) (s_agg self) W x neighbors pairwise_mask cut))
        (fun y =>
  lift (Dense_forward (s_f2out self) y)))).

(** A network that leaves the hidden state as it found it. *)
Definition stateless {S} (net : snetwork S) : Prop :=
  forall s t, snd (net s t) = s.

(** A layer of functions seen as a layer object: its networks ignore the
    state. *)
Definition as_object {S} (self : @CFConv R) : SCFConv S :=
  {| s_in2f := in2f self; s_f2out := f2out self;
     s_filter_network := fun s t => (filter_network self t, s);
     s_cutoff_network :=
       match cutoff_network self with
       | None => None
       | Some cn => Some (fun s t => (cn t, s))
       end;
     s_agg := agg self |}.
End Notions.

Arguments s_in2f {R S} _.
Arguments s_f2out {R S} _.
Arguments s_filter_network {R S} _.
Arguments s_cutoff_network {R S} _.
Arguments s_agg {R S} _.

(** ** A concrete layer on integers *)

(** The scenario of section 8 of the specification, on integer elements:
    one batch, three atoms with two neighbour slots each, [n_in = 4],
    [n_filters = 5], [n_out = 3], a filter network that returns the constant
    1, no cutoff. *)
Module Scenario.
(** Filters of width [F], all 1, for expanded distances of any width. *)
Definition unit_filter (F : nat) : @network Z :=
  fun t => Ok (tbuild (removelast (shape t) ++ [F]) (fun _ => 1%Z)).

(** Filters whose entries are the number of atom rows they were asked
    for: a network that does not act per atom. *)
Definition row_count_filter (F : nat) : @network Z :=
  fun t => Ok (tbuild (removelast (shape t) ++ [F])
                      (fun _ => Z.of_nat (nth 1 (shape t) 0))).


Definition w_in2f : list (list Z) :=
  [[1; 0; 0; 0]; [0; 1; 0; 0]; [0; 0; 1; 0]; [0; 0; 0; 1]; [1; 1; 1; 1]]%Z.

Definition w_f2out : list (list Z) :=
  [[1; 0; 0; 0; 0]; [0; 1; 1; 0; 0]; [0; 0; 0; 1; 1]]%Z.

Definition b_f2out : list Z := [100; 200; 300]%Z.

Definition layer (filter : network) (cutoff : option network) (mean : bool) : CFConv :=
  CFConv_init 4 5 3 filter cutoff None mean 2 w_in2f w_f2out b_f2out.

Definition sum_layer : CFConv := layer (unit_filter 5) None false.

Definition mean_layer : CFConv := layer (unit_filter 5) None true.


Definition x : tensor Z :=
  mkT [1; 3; 4] [1; 2; 3; 4;  5; 6; 7; 8;  9; 10; 11; 12]%Z.

Definition r_ij : tensor Z := mkT [1; 3; 2] [1; 2; 1; 3; 2; 3]%Z.

(** Atom 0 has neighbours 1 and 2, atom 1 has 0 and 2, atom 2 has 0
    and 1. *)
Definition neighbors : tensor Z := mkT [1; 3; 2] [1; 2; 0; 2; 0; 1]%Z.

(** Both slots of atom 0 are real, one of atom 1, none of atom 2. *)
Definition pairwise_mask : tensor Z := mkT [1; 3; 2] [1; 1; 1; 0; 0; 0]%Z.

(** The features of [x] with those of atom 2 replaced. *)
Definition x_other : tensor Z :=
  mkT [1; 3; 4] [1; 2; 3; 4;  5; 6; 7; 8;  0; 0; 0; 1]%Z.




(** A mask with one neighbour slot, where the table has two. *)
Definition mask_one_slot : tensor Z := mkT [1; 3; 1] [1; 1; 0]%Z.
End Scenario.

(** ** Floating-point elements *)

(** A neighbour count as a float: exact for every count a tensor can
    have. *)
Fixpoint float_of_nat (n : nat) : float :=
  match n with
  | 0 => 0%float
  | S m => PrimFloat.add (float_of_nat m) 1%float
  end.

(** The arithmetic of the layer's tensors: IEEE 754 operations, where
    [infinity * 0] and [nan * 0] are [nan]. *)
#[export] Instance Scalar_float : Scalar float :=
  {| s_zero := 0%float; s_one := 1%float;
     s_add := PrimFloat.add; s_mul := PrimFloat.mul; s_div := PrimFloat.div;
     s_of_nat := float_of_nat;
     s_nonzero := fun a => negb (PrimFloat.eqb a 0%float) |}.

(** A layer on floats: one batch, two atoms with one neighbour slot each,
    [n_in = 2], [n_filters = 2], [n_out = 1], filters all 1.0. *)
Module FloatScenario.
Definition unit_filter (F : nat) : @network float :=
  fun t => Ok (tbuild (removelast (shape t) ++ [F]) (fun _ => 1%float)).

Definition layer (mean : bool) : CFConv :=
  CFConv_init 2 2 1 (unit_filter 2) None None mean 2
              [[1; 0]; [0; 1]]%float [[1; 1]]%float [0%float].

(** Finite features, one of them negative. *)
Definition x : tensor float := mkT [1; 2; 2] [1; 2; -3; 4]%float.


Definition r_ij : tensor float := mkT [1; 2; 1] [1; 1]%float.

(** Atom 0 has neighbour 1, atom 1 has neighbour 0. *)
Definition neighbors : tensor Z := mkT [1; 2; 1] [1; 0]%Z.

(** The slot of atom 0 is padding, the slot of atom 1 is real. *)
Definition pairwise_mask : tensor float := mkT [1; 2; 1] [0; 1]%float.
End FloatScenario.

(** ** Shapes that broadcast *)




(** ** The layer of functions behind a layer object *)

Section Snapshot.
Context {R : Type} `{Scalar R} {S : Type}.

End Snapshot.

(** ** Lemmas on index arithmetic *)

Lemma in_bounds_length sh idx : in_bounds sh idx = true -> length idx = length sh.
Proof.
  revert idx; induction sh as [|d ds IH]; intros [|i js]; simpl; try congruence.
  intros H; apply andb_prop in H as [_ H]. f_equal; auto.
Qed.

Lemma ravel_lt sh idx : in_bounds sh idx = true -> ravel sh idx < numel sh.
Proof.
  revert idx; induction sh as [|d ds IH]; intros [|i js]; simpl; try congruence.
  - lia.
  - intros H; apply andb_prop in H as [Hi Hjs].
    apply Nat.ltb_lt in Hi. specialize (IH _ Hjs). nia.
Qed.

Lemma unravel_ravel sh idx : in_bounds sh idx = true -> unravel sh (ravel sh idx) = idx.
Proof.
  revert idx; induction sh as [|d ds IH]; intros [|i js]; simpl; try congruence.
  intros H; apply andb_prop in H as [Hi Hjs].
  pose proof (ravel_lt _ _ Hjs) as Hlt.
  assert (Hne : numel ds <> 0) by lia.
  set (r := ravel ds js) in *.
  replace ((i * numel ds + r) mod numel ds) with r.
  - rewrite Nat.div_add_l by exact Hne.
    rewrite Nat.div_small by exact Hlt.
    unfold r. rewrite IH by exact Hjs. f_equal. lia.
  - rewrite (Nat.add_comm (i * numel ds) r), Nat.Div0.mod_add.
    now rewrite Nat.mod_small.
Qed.

Lemma in_bounds_unravel sh n : n < numel sh -> in_bounds sh (unravel sh n) = true.
Proof.
  revert n; induction sh as [|d ds IH]; intros n Hn; simpl in *; auto.
  assert (Hne : numel ds <> 0) by (intros E; rewrite E in Hn; lia).
  apply andb_true_intro; split.
  - apply Nat.ltb_lt. apply Nat.Div0.div_lt_upper_bound. lia.
  - apply IH. apply Nat.mod_upper_bound; exact Hne.
Qed.

Lemma ravel_unravel sh n : n < numel sh -> ravel sh (unravel sh n) = n.
Proof.
  revert n; induction sh as [|d ds IH]; intros n Hn; simpl in *.
  - lia.
  - assert (Hne : numel ds <> 0) by (intros E; rewrite E in Hn; lia).
    rewrite IH by (apply Nat.mod_upper_bound; exact Hne).
    pose proof (Nat.div_mod_eq n (numel ds)). lia.
Qed.

(** ** Lemmas on [tbuild] and [tget] *)

Lemma tbuild_wf {A} sh (f : list nat -> A) : wf (tbuild sh f).
Proof. unfold wf, tbuild; simpl. now rewrite length_map, length_seq. Qed.

Lemma tget_tbuild {A} `{Default A} sh (f : list nat -> A) idx :
  in_bounds sh idx = true -> tget (tbuild sh f) idx = f idx.
Proof.
  intros Hb. unfold tget, tbuild; simpl.
  pose proof (ravel_lt _ _ Hb) as Hlt.
  rewrite nth_indep with (d' := f (unravel sh 0))
    by now rewrite length_map, length_seq.
  rewrite (map_nth (fun n => f (unravel sh n))).
  rewrite seq_nth by exact Hlt. simpl.
  now rewrite unravel_ravel.
Qed.

Lemma tensor_ext {A} `{Default A} (t u : tensor A) :
  wf t -> wf u -> shape t = shape u ->
  (forall idx, in_bounds (shape t) idx = true -> tget t idx = tget u idx) ->
  t = u.
Proof.
  destruct t as [sh dt], u as [sh' du]; unfold wf, tget; simpl.
  intros Ht Hu <- Hget. f_equal.
  apply nth_ext with (d := dflt) (d' := dflt); [congruence|].
  intros n Hn. rewrite Ht in Hn.
  specialize (Hget _ (in_bounds_unravel _ _ Hn)).
  now rewrite ravel_unravel in Hget.
Qed.

(** ** Facts on what a computation returns *)

Section ReturnsFacts.
Context {A : Type} `{Default A}.

Lemma returns_tbuild sh (f g : list nat -> A) :
  (forall idx, in_bounds sh idx = true -> f idx = g idx) ->
  returns (Ok (tbuild sh f)) sh g.
Proof.
  intros Hfg. exists (tbuild sh f). repeat split.
  - apply tbuild_wf.
  - intros idx Hb. rewrite tget_tbuild by exact Hb. now apply Hfg.
Qed.

Lemma returns_ext (r : result (tensor A)) sh f g :
  returns r sh f ->
  (forall idx, in_bounds sh idx = true -> f idx = g idx) ->
  returns r sh g.
Proof.
  intros (t & Hr & Hsh & Hwf & Hget) Hfg. exists t. repeat split; auto.
  intros idx Hb. rewrite Hget by exact Hb. now apply Hfg.
Qed.

Lemma returns_inj (r r' : result (tensor A)) sh f :
  returns r sh f -> returns r' sh f -> r = r'.
Proof.
  intros (t & -> & Hsh & Hwf & Hget) (t' & -> & Hsh' & Hwf' & Hget').
  f_equal. apply tensor_ext; auto; try congruence.
  intros idx Hb. rewrite Hsh in Hb. now rewrite Hget, Hget'.
Qed.

(** Every element stored in a well-formed tensor sits at a position of
    its shape. *)
Lemma wf_data_In (t : tensor A) v :
  wf t -> In v (data t) ->
  exists idx, in_bounds (shape t) idx = true /\ tget t idx = v.
Proof.
  intros Hwf Hin. apply (In_nth _ _ dflt) in Hin as (n & Hn & Hv).
  rewrite Hwf in Hn. exists (unravel (shape t) n). split.
  - now apply in_bounds_unravel.
  - unfold tget. now rewrite ravel_unravel.
Qed.
End ReturnsFacts.

(** Positions of a shape of rank three or four. *)
Lemma in_bounds3 B N K idx :
  in_bounds [B; N; K] idx = true ->
  exists b i k, idx = [b; i; k] /\ b < B /\ i < N /\ k < K.
Proof.
  destruct idx as [|b [|i [|k [|? ?]]]]; simpl; try congruence;
    try (rewrite ?andb_false_r; congruence).
  rewrite andb_true_r. intros Hb.
  apply andb_prop in Hb as [Hb Hb']. apply andb_prop in Hb' as [Hi Hk].
  apply Nat.ltb_lt in Hb, Hi, Hk. now exists b, i, k.
Qed.

Lemma in_bounds4 B N K F idx :
  in_bounds [B; N; K; F] idx = true ->
  exists b i k f, idx = [b; i; k; f] /\ b < B /\ i < N /\ k < K /\ f < F.
Proof.
  destruct idx as [|b [|i [|k [|f [|? ?]]]]]; simpl; try congruence;
    try (rewrite ?andb_false_r; congruence).
  rewrite andb_true_r. intros Hb.
  apply andb_prop in Hb as [Hb Hb']. apply andb_prop in Hb' as [Hi Hb'].
  apply andb_prop in Hb' as [Hk Hf].
  apply Nat.ltb_lt in Hb, Hi, Hk, Hf. now exists b, i, k, f.
Qed.

Lemma in_bounds3_intro B N K b i k :
  b < B -> i < N -> k < K -> in_bounds [B; N; K] [b; i; k] = true.
Proof.
  intros Hb Hi Hk. simpl.
  apply Nat.ltb_lt in Hb, Hi, Hk. now rewrite Hb, Hi, Hk.
Qed.

Lemma in_bounds4_intro B N K F b i k f :
  b < B -> i < N -> k < K -> f < F -> in_bounds [B; N; K; F] [b; i; k; f] = true.
Proof.
  intros Hb Hi Hk Hf. simpl.
  apply Nat.ltb_lt in Hb, Hi, Hk, Hf. now rewrite Hb, Hi, Hk, Hf.
Qed.

(** ** Facts on the tensor operations *)

Section OpsFacts.
Context {A : Type} `{Default A}.

Lemma slice_len_le n c : slice_len n c <= n.
Proof. unfold slice_len. destruct (c <? 0)%Z eqn:E; lia. Qed.

Lemma slice_len_nonneg n c : (0 <= c)%Z -> slice_len n c = Nat.min n (Z.to_nat c).
Proof.
  intros Hc. unfold slice_len.
  destruct (Z.ltb_spec c 0); [lia | reflexivity].
Qed.

Lemma slice_len_full n c : (Z.of_nat n <= c)%Z -> slice_len n c = n.
Proof. intros Hc. rewrite slice_len_nonneg by lia. lia. Qed.

Lemma slice_len_idem n c : (0 <= c)%Z -> slice_len (slice_len n c) c = slice_len n c.
Proof. intros Hc. rewrite !slice_len_nonneg by exact Hc. lia. Qed.

Lemma in_bounds_slice d0 d1 ds c idx :
  in_bounds (d0 :: slice_len d1 c :: ds) idx = true ->
  in_bounds (d0 :: d1 :: ds) idx = true.
Proof.
  destruct idx as [|b [|i js]]; simpl; try congruence.
  intros Hb. apply andb_prop in Hb as [Hb Hb'].
  apply andb_prop in Hb' as [Hi Hjs]. rewrite Hb, Hjs.
  apply Nat.ltb_lt in Hi. pose proof (slice_len_le d1 c).
  assert (E : (i <? d1) = true) by (apply Nat.ltb_lt; lia).
  now rewrite E.
Qed.

Lemma slice1_returns (t : tensor A) d0 d1 ds c :
  shape t = d0 :: d1 :: ds ->
  returns (slice1 t c) (d0 :: slice_len d1 c :: ds) (tget t).
Proof.
  intros Hsh. unfold slice1. rewrite Hsh. now apply returns_tbuild.
Qed.

Lemma ravel_snoc sh idx d i :
  length idx = length sh ->
  ravel (sh ++ [d]) (idx ++ [i]) = ravel sh idx * d + i.
Proof.
  revert idx; induction sh as [|s sh IH]; intros [|j js]; simpl; try congruence.
  - lia.
  - intros Hl. injection Hl as Hl. rewrite (IH _ Hl).
    assert (Hn : numel (sh ++ [d]) = numel sh * d).
    { clear. induction sh; simpl; [lia | rewrite IHsh; lia]. }
    rewrite Hn. lia.
Qed.

Lemma tget_unsqueeze_last (t : tensor A) idx :
  length idx = length (shape t) ->
  tget (unsqueeze_last t) (idx ++ [0]) = tget t idx.
Proof.
  intros Hl. unfold tget, unsqueeze_last; simpl.
  rewrite ravel_snoc by exact Hl. f_equal. lia.
Qed.

End OpsFacts.

Section ViewFacts.
Context {A : Type} `{Default A}.

(** [view(-1, m, 1)] of [b * m] elements, [m] positive. *)
Lemma infer_size_lead b m :
  0 < m -> infer_size [(-1)%Z; Z.of_nat m; 1%Z] (b * m) = Ok [b; m; 1].
Proof.
  intros Hm. unfold infer_size.
  assert (E1 : (Z.of_nat m <? -1)%Z = false) by (apply Z.ltb_ge; lia).
  assert (E2 : (Z.of_nat m =? -1)%Z = false) by (apply Z.eqb_neq; lia).
  assert (Ex : existsb (fun s => (s <? -1)%Z) [(-1)%Z; Z.of_nat m; 1%Z] = false).
  { cbn [existsb]. rewrite E1. reflexivity. }
  assert (Ec : count_occ Z.eq_dec [(-1)%Z; Z.of_nat m; 1%Z] (-1)%Z = 1).
  { cbn [count_occ].
    destruct (Z.eq_dec (-1) (-1)) as [_|N]; [|congruence].
    destruct (Z.eq_dec (Z.of_nat m) (-1)) as [E|_]; [lia|].
    destruct (Z.eq_dec 1 (-1)) as [E|_]; [lia|reflexivity]. }
  assert (Ep : prod_known [(-1)%Z; Z.of_nat m; 1%Z] = m).
  { unfold prod_known. cbn [fold_right]. rewrite E2, Nat2Z.id.
    change (-1 =? -1)%Z with true. change (1 =? -1)%Z with false.
    cbv iota. change (Z.to_nat 1) with 1. lia. }
  rewrite Ex, Ec, Ep.
  assert (E3 : (0 <? m) = true) by now apply Nat.ltb_lt.
  rewrite E3, Nat.Div0.mod_mul, Nat.eqb_refl. cbn [andb map].
  rewrite E2, Nat2Z.id, Nat.div_mul by lia. reflexivity.
Qed.

(** An empty leading view cannot be inferred. *)
Lemma infer_size_lead_empty n :
  infer_size [(-1)%Z; 0%Z; 1%Z] n = Err ShapeMismatch.
Proof. reflexivity. Qed.

(** [view(b, c, k, -1)] of [b * c * k * f] elements, [b * c * k]
    positive. *)
Lemma infer_size_last b c k f :
  0 < b * (c * k) ->
  infer_size [Z.of_nat b; Z.of_nat c; Z.of_nat k; (-1)%Z] (b * (c * k) * f)
  = Ok [b; c; k; f].
Proof.
  intros Hp. unfold infer_size.
  set (sizes := [Z.of_nat b; Z.of_nat c; Z.of_nat k; (-1)%Z]).
  assert (E1 : forall n, (Z.of_nat n <? -1)%Z = false) by (intros; apply Z.ltb_ge; lia).
  assert (E2 : forall n, (Z.of_nat n =? -1)%Z = false) by (intros; apply Z.eqb_neq; lia).
  assert (Ex : existsb (fun s => (s <? -1)%Z) sizes = false).
  { unfold sizes. cbn [existsb]. rewrite !E1. reflexivity. }
  assert (Ec : count_occ Z.eq_dec sizes (-1)%Z = 1).
  { unfold sizes. cbn [count_occ].
    destruct (Z.eq_dec (-1) (-1)) as [_|N]; [|congruence].
    destruct (Z.eq_dec (Z.of_nat b) (-1)) as [E|_]; [lia|].
    destruct (Z.eq_dec (Z.of_nat c) (-1)) as [E|_]; [lia|].
    destruct (Z.eq_dec (Z.of_nat k) (-1)) as [E|_]; [lia|reflexivity]. }
  assert (Ep : prod_known sizes = b * (c * k)).
  { unfold sizes, prod_known. cbn [fold_right]. rewrite !E2, !Nat2Z.id.
    change (-1 =? -1)%Z with true. cbv iota. lia. }
  rewrite Ex, Ec, Ep.
  assert (E3 : (0 <? b * (c * k)) = true) by now apply Nat.ltb_lt.
  rewrite E3, (Nat.mul_comm (b * (c * k)) f), Nat.Div0.mod_mul, Nat.eqb_refl.
  unfold sizes. cbn [andb map]. rewrite !E2, !Nat2Z.id, Nat.div_mul by lia.
  reflexivity.
Qed.

(** A view keeps the elements in row-major order. *)
Lemma view_returns (t : tensor A) sizes sh' :
  wf t -> infer_size sizes (numel (shape t)) = Ok sh' ->
  numel sh' = numel (shape t) ->
  returns (view t sizes) sh'
          (fun idx => tget t (unravel (shape t) (ravel sh' idx))).
Proof.
  intros Hwf Hinf Hnum. unfold view. rewrite Hinf. cbn [bind].
  eexists. repeat split.
  - unfold wf in *; simpl. congruence.
  - intros idx Hb. unfold tget; simpl.
    rewrite ravel_unravel; [reflexivity|].
    rewrite <- Hnum. now apply ravel_lt.
Qed.
End ViewFacts.

Section BroadcastFacts.
Context {A : Type} `{Default A}.

Lemma broadcast_dim_refl x : broadcast_dim x x = Ok x.
Proof. unfold broadcast_dim. now rewrite Nat.eqb_refl. Qed.

Lemma broadcast_dim_one x : broadcast_dim x 1 = Ok x.
Proof.
  unfold broadcast_dim.
  destruct (Nat.eqb_spec x 1) as [->|_]; [reflexivity|].
  now rewrite Nat.eqb_refl.
Qed.

Lemma broadcast_rev_refl l : broadcast_rev l l = Ok l.
Proof.
  induction l as [|x l IH]; [reflexivity|].
  simpl. now rewrite broadcast_dim_refl, IH.
Qed.

Lemma broadcast_shapes_refl sh : broadcast_shapes sh sh = Ok sh.
Proof.
  unfold broadcast_shapes. rewrite broadcast_rev_refl. cbn [bind].
  now rewrite rev_involutive.
Qed.

Lemma broadcast_shapes_last1 sh F :
  broadcast_shapes (sh ++ [F]) (sh ++ [1]) = Ok (sh ++ [F]).
Proof.
  unfold broadcast_shapes. rewrite !rev_unit. cbn [broadcast_rev].
  rewrite broadcast_dim_one, broadcast_rev_refl. cbn [bind rev].
  now rewrite rev_involutive.
Qed.

Lemma bcast_index_same sh idx :
  in_bounds sh idx = true -> bcast_index sh idx = idx.
Proof.
  intros Hb. unfold bcast_index.
  rewrite (in_bounds_length _ _ Hb), Nat.sub_diag. cbn [skipn].
  revert idx Hb; induction sh as [|d ds IH]; intros [|i js]; simpl; try congruence.
  intros Hb. apply andb_prop in Hb as [Hi Hjs]. apply Nat.ltb_lt in Hi.
  rewrite (IH _ Hjs). f_equal.
  destruct (Nat.eqb_spec d 1); lia.
Qed.

Lemma in_bounds_snoc sh d idx :
  in_bounds (sh ++ [d]) idx = true ->
  exists pre i, idx = pre ++ [i] /\ in_bounds sh pre = true /\ i < d.
Proof.
  revert idx; induction sh as [|s sh IH]; intros [|j js]; simpl; try congruence.
  - destruct js; [|now rewrite andb_false_r].
    rewrite andb_true_r. intros Hj. apply Nat.ltb_lt in Hj.
    now exists [], j.
  - intros Hb. apply andb_prop in Hb as [Hj Hjs].
    destruct (IH _ Hjs) as (pre & i & -> & Hpre & Hi).
    exists (j :: pre), i. simpl. now rewrite Hj, Hpre.
Qed.

Lemma bcast_index_last1 sh pre i :
  in_bounds sh pre = true -> bcast_index (sh ++ [1]) (pre ++ [i]) = pre ++ [0].
Proof.
  intros Hb. unfold bcast_index.
  rewrite !length_app, (in_bounds_length _ _ Hb), Nat.sub_diag. cbn [skipn].
  revert pre Hb; induction sh as [|d ds IH]; intros [|j js]; simpl; try congruence.
  intros Hb. apply andb_prop in Hb as [Hj Hjs]. apply Nat.ltb_lt in Hj.
  rewrite (IH _ Hjs). f_equal.
  destruct (Nat.eqb_spec d 1); lia.
Qed.

Lemma map2b_same (op : A -> A -> A) (t u : tensor A) sh :
  shape t = sh -> shape u = sh ->
  returns (map2b op t u) sh (fun idx => op (tget t idx) (tget u idx)).
Proof.
  intros Ht Hu. unfold map2b. rewrite Ht, Hu, broadcast_shapes_refl.
  cbn [bind]. apply returns_tbuild.
  intros idx Hb. now rewrite bcast_index_same.
Qed.

Lemma map2b_last1 (op : A -> A -> A) (t u : tensor A) sh F :
  shape t = sh ++ [F] -> shape u = sh ++ [1] ->
  returns (map2b op t u) (sh ++ [F])
          (fun idx => op (tget t idx) (tget u (removelast idx ++ [0]))).
Proof.
  intros Ht Hu. unfold map2b. rewrite Ht, Hu, broadcast_shapes_last1.
  cbn [bind]. apply returns_tbuild.
  intros idx Hb. rewrite bcast_index_same by exact Hb.
  destruct (in_bounds_snoc _ _ _ Hb) as (pre & i & -> & Hpre & Hi).
  rewrite bcast_index_last1 by exact Hpre.
  now rewrite removelast_last.
Qed.

(** Shapes that do not broadcast make the operation fail. *)
Lemma map2b_mismatch (op : A -> A -> A) (t u : tensor A) :
  broadcast_shapes (shape t) (shape u) = Err ShapeMismatch ->
  map2b op t u = Err ShapeMismatch.
Proof. intros E. unfold map2b. now rewrite E. Qed.

Lemma expand_dim_keep d : expand_dim d (-1) = Ok d.
Proof. reflexivity. Qed.

Lemma expand_dim_one F : expand_dim 1 (Z.of_nat F) = Ok F.
Proof.
  unfold expand_dim.
  destruct (Z.eqb_spec (Z.of_nat F) (-1)); [lia|].
  destruct (Z.ltb_spec (Z.of_nat F) 0); [lia|].
  rewrite Nat2Z.id.
  destruct (Nat.eqb_spec F 1) as [->|_]; reflexivity.
Qed.

(** [expand(-1, -1, F)] of a tensor whose last extent is 1. *)
Lemma expand3_returns (t : tensor A) B M F :
  shape t = [B; M; 1] ->
  returns (expand t [(-1)%Z; (-1)%Z; Z.of_nat F]) [B; M; F]
          (fun idx => tget t (removelast idx ++ [0])).
Proof.
  intros Hsh. unfold expand. rewrite Hsh. cbn [rev app expand_rev].
  rewrite expand_dim_one, !expand_dim_keep. cbn [bind rev app].
  apply returns_tbuild. intros idx Hb.
  change [B; M; F] with ([B; M] ++ [F]) in Hb.
  destruct (in_bounds_snoc _ _ _ Hb) as (pre & i & -> & Hpre & Hi).
  change [B; M; 1] with ([B; M] ++ [1]).
  rewrite bcast_index_last1 by exact Hpre.
  now rewrite removelast_last.
Qed.
End BroadcastFacts.

Section GatherFacts.
Context {A : Type} `{Default A}.

Lemma numel_zero_no_index sh idx :
  numel sh = 0 -> in_bounds sh idx = true -> False.
Proof. intros Hz Hb. apply ravel_lt in Hb. lia. Qed.

(** [gather] along dimension 1 of a rank-three tensor with an index of the
    same batch and feature extents, all entries naming a row. *)
Lemma gather3_returns (y : tensor A) (index : tensor Z) B N M F :
  shape y = [B; N; F] -> shape index = [B; M; F] -> wf index ->
  (forall idx, in_bounds [B; M; F] idx = true ->
               (0 <= tget index idx < Z.of_nat N)%Z) ->
  returns (gather y 1 index) [B; M; F]
          (fun idx => tget y (replace_at 1 (Z.to_nat (tget index idx)) idx)).
Proof.
  intros Hy Hi Hwf Hrange. unfold gather. rewrite Hi, Hy.
  destruct (Nat.eqb_spec (numel [B; M; F]) 0) as [Hz|Hnz].
  - exists (mkT [B; M; F] []). repeat split.
    + unfold wf; simpl. simpl in Hz. lia.
    + intros idx Hb. now destruct (numel_zero_no_index _ _ Hz Hb).
  - assert (Eshape : gather_shape_ok [B; M; F] [B; N; F] 1 = true).
    { simpl. now rewrite !Nat.leb_refl. }
    assert (Erange : forallb (fun v => (0 <=? v)%Z && (v <? Z.of_nat (nth 1 [B; N; F] 0%nat))%Z)
                             (data index) = true).
    { apply forallb_forall. intros v Hv.
      destruct (wf_data_In index v Hwf Hv) as (idx & Hb & <-).
      rewrite Hi in Hb. specialize (Hrange _ Hb). simpl.
      apply andb_true_intro; split; [apply Z.leb_le | apply Z.ltb_lt]; lia. }
    rewrite Eshape, Erange. cbn [length Nat.eqb Nat.ltb Nat.leb negb].
    now apply returns_tbuild.
Qed.

Lemma reduce_axis_drop {C} (g : list A -> C) `{Default C} (t : tensor A) axis n :
  nth_error (shape t) axis = Some n ->
  returns (reduce_axis g t axis false) (remove_at axis (shape t))
          (fun idx => g (map (fun j => tget t (insert_at axis j idx)) (seq 0 n))).
Proof.
  intros Hn. unfold reduce_axis. rewrite Hn. now apply returns_tbuild.
Qed.

Lemma reduce_axis_keep {C} (g : list A -> C) `{Default C} (t : tensor A) axis n :
  nth_error (shape t) axis = Some n ->
  returns (reduce_axis g t axis true) (replace_at axis 1 (shape t))
          (fun idx => g (map (fun j => tget t (replace_at axis j idx)) (seq 0 n))).
Proof.
  intros Hn. unfold reduce_axis. rewrite Hn. now apply returns_tbuild.
Qed.
End GatherFacts.

Section DenseFacts.
Context {R : Type} `{Scalar R}.

Lemma Dense_forward_returns (self : Dense) (x : tensor R) lead :
  shape x = lead ++ [in_features self] ->
  returns (Dense_forward self x) (lead ++ [out_features self])
          (fun idx => dense_row self (fun i => tget x (removelast idx ++ [i]))
                                (last idx 0)).
Proof.
  intros Hsh. unfold Dense_forward. rewrite Hsh, rev_unit, Nat.eqb_refl.
  rewrite rev_involutive. now apply returns_tbuild.
Qed.

End DenseFacts.

(** ** The neighbour gather (lines 67-72) *)

Lemma ravel_merge4 B c K F b i k f :
  ravel [B; c; K; F] [b; i; k; f] = ravel [B; c * K; F] [b; i * K + k; f].
Proof. cbn [ravel numel]. ring. Qed.

Lemma ravel_merge3 B c K b i k :
  ravel [B; c * K; 1] [b; i * K + k; 0] = ravel [B; c; K] [b; i; k].
Proof. cbn [ravel numel]. ring. Qed.

Lemma merged_in_bounds c K i k : i < c -> k < K -> i * K + k < c * K.
Proof. nia. Qed.

Section GatherStage.
Context {R : Type} `{Scalar R}.

Lemma size_nth (A : Type) (t : tensor A) k d :
  nth_error (shape t) k = Some d -> size t k = Ok d.
Proof. intros E. unfold size. now rewrite E. Qed.

(** The gather of lines 67-72 on a projected tensor of [N] atoms and the
    first [c] rows of the neighbour table: every entry of the result is the
    feature of the atom the table names. *)
Lemma gather_stage_returns (y : tensor R) (neighbors : tensor Z) B N Nn K F cut :
  shape y = [B; N; F] -> shape neighbors = [B; Nn; K] ->
  0 < B -> 0 < K -> 0 < slice_len Nn cut ->
  (forall idx, in_bounds [B; slice_len Nn cut; K] idx = true ->
               (0 <= tget neighbors idx < Z.of_nat N)%Z) ->
  returns (gather_stage y neighbors cut) [B; slice_len Nn cut; K; F]
          (fun idx => tget y [nth 0 idx 0;
                              Z.to_nat (tget neighbors (removelast idx));
                              last idx 0]).
Proof.
  intros Hy Hn HB HK Hc Hrange. set (c := slice_len Nn cut) in *.
  unfold gather_stage.
  destruct (slice1_returns neighbors B Nn [K] cut Hn) as (nc & -> & Hnc & Wnc & Gnc).
  fold c in Hnc, Gnc. cbn [bind].
  rewrite (size_nth _ nc 1 c) by now rewrite Hnc.
  rewrite (size_nth _ nc 2 K) by now rewrite Hnc.
  cbn [bind].
  assert (Hpos : 0 < c * K) by nia.
  assert (Hnum : numel (shape nc) = B * (c * K)) by (rewrite Hnc; simpl; lia).
  destruct (view_returns nc [(-1)%Z; Z.of_nat (c * K); 1%Z] [B; c * K; 1] Wnc)
    as (nv & -> & Hnv & Wnv & Gnv).
  { rewrite Hnum. now apply infer_size_lead. }
  { rewrite Hnum. simpl. lia. }
  cbn [bind].
  rewrite (size_nth _ y 2 F) by now rewrite Hy.
  cbn [bind].
  destruct (expand3_returns nv B (c * K) F Hnv) as (ne & -> & Hne & Wne & Gne).
  cbn [bind].
  (* the entries of the expanded index *)
  assert (Ene : forall b i k f, b < B -> i < c -> k < K -> f < F ->
                  tget ne [b; i * K + k; f] = tget neighbors [b; i; k]).
  { intros b i k f Hb Hi Hk Hf.
    pose proof (merged_in_bounds c K i k Hi Hk) as Hm.
    rewrite Gne by (apply in_bounds3_intro; lia). cbn [removelast app].
    rewrite Gnv by (apply in_bounds3_intro; lia).
    rewrite ravel_merge3, Hnc, unravel_ravel by (apply in_bounds3_intro; lia).
    apply Gnc. apply in_bounds3_intro; lia. }
  assert (Hcover : forall idx, in_bounds [B; c * K; F] idx = true ->
                     exists b i k f, idx = [b; i * K + k; f] /\
                                     b < B /\ i < c /\ k < K /\ f < F).
  { intros idx Hb. apply in_bounds3 in Hb as (b & j & f & -> & Hb & Hj & Hf).
    exists b, (j / K), (j mod K), f. repeat split; auto.
    - f_equal. f_equal. pose proof (Nat.div_mod_eq j K). lia.
    - apply Nat.Div0.div_lt_upper_bound. lia.
    - apply Nat.mod_upper_bound. lia. }
  destruct (gather3_returns y ne B N (c * K) F Hy Hne Wne) as (g & -> & Hg & Wg & Gg).
  { intros idx Hb. destruct (Hcover _ Hb) as (b & i & k & f & -> & Hb' & Hi & Hk & Hf).
    rewrite Ene by assumption. apply Hrange. apply in_bounds3_intro; lia. }
  cbn [bind].
  rewrite (size_nth _ nc 0 B) by now rewrite Hnc.
  cbn [bind].
  assert (Hnumg : numel (shape g) = B * (c * K) * F) by (rewrite Hg; simpl; lia).
  eapply returns_ext.
  - apply view_returns with (sh' := [B; c; K; F]); [exact Wg | |].
    + rewrite Hnumg. apply infer_size_last. nia.
    + rewrite Hnumg. simpl. lia.
  - intros idx Hb. apply in_bounds4 in Hb as (b & i & k & f & -> & Hb & Hi & Hk & Hf).
    pose proof (merged_in_bounds c K i k Hi Hk) as Hm.
    rewrite ravel_merge4, Hg, unravel_ravel by (apply in_bounds3_intro; lia).
    rewrite Gg by (apply in_bounds3_intro; lia).
    rewrite Ene by assumption. reflexivity.
Qed.
End GatherStage.

(** ** The masked aggregation *)

Section AggregateFacts.
Context {R : Type} `{Scalar R}.

Lemma in_seq_lt n k : In k (seq 0 n) -> k < n.
Proof. intros Hk. apply in_seq in Hk. lia. Qed.

(** On products of shape (B, c, K, F) and a mask of shape (B, c, K),
    reducing axis 2. *)
Lemma Aggregate_forward_returns (self : @Aggregate) (input mask : tensor R) B c K F :
  agg_axis self = 2 ->
  shape input = [B; c; K; F] -> shape mask = [B; c; K] ->
  returns (Aggregate_forward self input mask) [B; c; F]
    (fun idx =>
       let b := nth 0 idx 0 in
       let i := nth 1 idx 0 in
       let f := nth 2 idx 0 in
       let S := ssum (map (fun k => s_mul (tget input [b; i; k; f]) (tget mask [b; i; k]))
                          (seq 0 K)) in
       if agg_mean self
       then s_div S (s_of_nat (Nat.max 1 (count_nonzero
                                  (map (fun k => tget mask [b; i; k]) (seq 0 K)))))
       else S).
Proof.
  intros Hax Hin Hm. unfold Aggregate_forward. rewrite Hax.
  destruct (map2b_last1 s_mul input (unsqueeze_last mask) [B; c; K] F)
    as (p & -> & Hp & Wp & Gp); [exact Hin | simpl; now rewrite Hm |].
  cbn [bind].
  destruct (reduce_axis_drop ssum p 2 K) as (y & -> & Hy & Wy & Gy);
    [now rewrite Hp |].
  rewrite Hp in Hy, Gy. cbn [remove_at firstn skipn app] in Hy, Gy.
  cbn [bind].
  assert (Esum : forall b i f, b < B -> i < c -> f < F ->
            tget y [b; i; f]
            = ssum (map (fun k => s_mul (tget input [b; i; k; f]) (tget mask [b; i; k]))
                        (seq 0 K))).
  { intros b i f Hb Hi Hf. rewrite Gy by (apply in_bounds3_intro; lia).
    f_equal. apply map_ext_in. intros k Hk. apply in_seq_lt in Hk.
    cbn [insert_at firstn skipn app].
    rewrite Gp by (apply in_bounds4_intro; lia). f_equal.
    cbn [removelast app].
    apply (tget_unsqueeze_last mask [b; i; k]). now rewrite Hm. }
  destruct (agg_mean self).
  - destruct (reduce_axis_keep
                (fun l => s_of_nat (Nat.max 1 (count_nonzero l))) mask 2 K)
      as (n & -> & Hn & Wn & Gn); [now rewrite Hm |].
    rewrite Hm in Hn, Gn. cbn [replace_at firstn skipn app] in Hn, Gn.
    cbn [bind].
    eapply returns_ext.
    + apply (map2b_last1 s_div y n [B; c] F); assumption.
    + intros idx Hb. apply in_bounds3 in Hb as (b & i & f & -> & Hb & Hi & Hf).
      cbn [nth removelast app]. rewrite Esum by assumption. f_equal.
      rewrite Gn by (apply in_bounds3_intro; lia).
      reflexivity.
  - exists y. repeat split; auto.
    intros idx Hb. apply in_bounds3 in Hb as (b & i & f & -> & Hb & Hi & Hf).
    cbn [nth]. now apply Esum.
Qed.
End AggregateFacts.

(** ** The forward pass, stage by stage *)

Section ForwardFacts.
Context {R : Type} `{Scalar R}.

Lemma expanded_shape (r_ij : tensor R) (f_ij : option (tensor R)) B N K :
  shape r_ij = [B; N; K] ->
  match f_ij with
  | None => True
  | Some f => exists G, shape f = [B; N; K; G]
  end ->
  exists G, shape (match f_ij with
                   | None => unsqueeze_last r_ij
                   | Some f => f
                   end) = [B; N; K; G].
Proof.
  intros Hr Hf. destruct f_ij as [f|].
  - exact Hf.
  - exists 1. simpl. now rewrite Hr.
Qed.

(** Lines 54-62 return a filter of shape (B, c, K, F). *)
Lemma filter_stage_returns (self : @CFConv R) (r_ij : tensor R)
      (f_ij : option (tensor R)) cut B N K F :
  valid_layer self F -> shape r_ij = [B; N; K] ->
  match f_ij with
  | None => True
  | Some f => exists G, shape f = [B; N; K; G]
  end ->
  exists Wf, returns (filter_stage self r_ij f_ij cut) [B; slice_len N cut; K; F] Wf.
Proof.
  intros Hl Hr Hf. unfold filter_stage.
  destruct (expanded_shape r_ij f_ij B N K Hr Hf) as (G & Hsh).
  destruct (slice1_returns _ B N [K; G] cut Hsh) as (fc & -> & Hfc & _ & _).
  cbn [bind].
  destruct (vl_filter _ _ Hl fc _ _ _ _ Hfc) as (W & -> & HW & WW).
  cbn [bind].
  destruct (cutoff_network self) as [cn|] eqn:Ecn.
  - destruct (slice1_returns r_ij B N [K] cut Hr) as (rc & -> & Hrc & _ & _).
    cbn [bind].
    destruct (vl_cutoff _ _ Hl cn Ecn rc) as (C & -> & HC & WC).
    cbn [bind]. eexists.
    apply (map2b_last1 s_mul W (unsqueeze_last C) [B; slice_len N cut; K] F).
    + exact HW.
    + simpl. now rewrite HC, Hrc.
  - exists (tget W). exists W. repeat split; auto.
Qed.

(** Lines 51-75 with an explicit [cut]: the aggregated tensor has shape
    (B, c, F) and its entries are [aggregate_value]. *)
Lemma aggregated_returns (self : @CFConv R) (x r_ij : tensor R) (neighbors : tensor Z)
      (pairwise_mask : tensor R) (f_ij : option (tensor R)) cut B N K F Wf :
  valid_layer self F ->
  valid_input self x r_ij neighbors pairwise_mask f_ij B N K ->
  (0 <= cut)%Z -> 0 < slice_len N cut ->
  returns (filter_stage self r_ij f_ij cut) [B; slice_len N cut; K; F] Wf ->
  returns (aggregated self x r_ij neighbors pairwise_mask f_ij (Some cut))
          [B; slice_len N cut; F]
          (fun idx => aggregate_value self x neighbors pairwise_mask Wf K
                                      (nth 0 idx 0) (nth 1 idx 0) (nth 2 idx 0)).
Proof.
  intros Hl Hv Hcut Hc HW. destruct Hv as [HB HK Hx Hr Hn Hm Hfs Hidx].
  set (c := slice_len N cut) in *.
  assert (Hcle : c <= N) by apply slice_len_le.
  unfold aggregated, convolution. cbn [resolve_cut bind].
  destruct HW as (W & -> & HWs & WW & GW). cbn [bind].
  destruct (Dense_forward_returns (in2f self) x [B; N] Hx)
    as (y & -> & Hy & Wy & Gy).
  rewrite (vl_in2f _ _ Hl) in Hy, Gy. cbn [app] in Hy, Gy. cbn [bind].
  destruct (gather_stage_returns y neighbors B N N K F cut Hy Hn HB HK Hc)
    as (g & -> & Hg & Wg & Gg).
  { intros idx Hb. apply Hidx. eapply in_bounds_slice. exact Hb. }
  fold c in Hg, Gg. cbn [bind].
  destruct (slice1_returns g B c [K; F] cut Hg) as (yc & -> & Hyc & Wyc & Gyc).
  destruct (slice1_returns W B c [K; F] cut HWs) as (Wc & -> & HWc & WWc & GWc).
  unfold c in Hyc, Gyc, HWc, GWc. rewrite slice_len_idem in Hyc, Gyc, HWc, GWc by exact Hcut.
  fold c in Hyc, Gyc, HWc, GWc. cbn [bind].
  destruct (map2b_same s_mul yc Wc [B; c; K; F] Hyc HWc) as (p & -> & Hp & Wp & Gp).
  cbn [bind].
  destruct (slice1_returns pairwise_mask B N [K] cut Hm) as (mc & -> & Hmc & Wmc & Gmc).
  fold c in Hmc, Gmc. cbn [bind].
  eapply returns_ext.
  - apply (Aggregate_forward_returns (agg self) p mc B c K F (vl_axis _ _ Hl) Hp Hmc).
  - intros idx Hb. apply in_bounds3 in Hb as (b & i & f & -> & Hb & Hi & Hf).
    cbn [nth]. unfold aggregate_value, neighbour_sum, neighbour_count.
    assert (Esum : forall k, In k (seq 0 K) ->
              s_mul (tget p [b; i; k; f]) (tget mc [b; i; k])
              = s_mul (s_mul (projected self x b (Z.to_nat (tget neighbors [b; i; k])) f)
                             (Wf [b; i; k; f]))
                      (tget pairwise_mask [b; i; k])).
    { intros k Hk. apply in_seq_lt in Hk.
      rewrite Gp, Gyc, GWc, Gg, GW by (apply in_bounds4_intro; lia).
      rewrite Gmc by (apply in_bounds3_intro; lia).
      cbn [nth removelast last].
      assert (Hj : Z.to_nat (tget neighbors [b; i; k]) < N).
      { specialize (Hidx [b; i; k] (in_bounds3_intro B N K b i k Hb ltac:(lia) Hk)). lia. }
      rewrite Gy by (apply in_bounds3_intro; lia).
      reflexivity. }
    assert (Ecnt : map (fun k => tget mc [b; i; k]) (seq 0 K)
                   = map (fun k => tget pairwise_mask [b; i; k]) (seq 0 K)).
    { apply map_ext_in. intros k Hk. apply in_seq_lt in Hk.
      apply Gmc. apply in_bounds3_intro; lia. }
    rewrite (map_ext_in _ _ _ Esum), Ecnt. reflexivity.
Qed.
End ForwardFacts.

Section ForwardReturns.
Context {R : Type} `{Scalar R}.

(** Without [cut] the atom count of [x] is used. *)
Lemma aggregated_default_cut (self : @CFConv R) (x r_ij : tensor R)
      (neighbors : tensor Z) (pairwise_mask : tensor R) f_ij d0 N ds :
  shape x = d0 :: N :: ds ->
  aggregated self x r_ij neighbors pairwise_mask f_ij None
  = aggregated self x r_ij neighbors pairwise_mask f_ij (Some (Z.of_nat N)).
Proof.
  intros Hx. unfold aggregated, resolve_cut, size. now rewrite Hx.
Qed.

Lemma forward_default_cut (self : @CFConv R) (x r_ij : tensor R)
      (neighbors : tensor Z) (pairwise_mask : tensor R) f_ij d0 N ds :
  shape x = d0 :: N :: ds ->
  forward self x r_ij neighbors pairwise_mask f_ij None
  = forward self x r_ij neighbors pairwise_mask f_ij (Some (Z.of_nat N)).
Proof.
  intros Hx. unfold forward.
  now rewrite (aggregated_default_cut self x r_ij neighbors pairwise_mask f_ij d0 N ds Hx).
Qed.

Lemma slice_len_self N : slice_len N (Z.of_nat N) = N.
Proof. apply slice_len_full. lia. Qed.

Lemma cut_rows_value N cut : cut_rows N cut = slice_len N (cut_value N cut).
Proof. destruct cut; simpl; [reflexivity | now rewrite slice_len_self]. Qed.

Lemma valid_cut_value N cut : valid_cut N cut -> (0 <= cut_value N cut)%Z.
Proof. intros [Hc _]. destruct cut; simpl; lia. Qed.

Lemma forward_cut_value (self : @CFConv R) (x r_ij : tensor R)
      (neighbors : tensor Z) (pairwise_mask : tensor R) f_ij d0 N ds cut :
  shape x = d0 :: N :: ds ->
  forward self x r_ij neighbors pairwise_mask f_ij cut
  = forward self x r_ij neighbors pairwise_mask f_ij (Some (cut_value N cut)).
Proof.
  intros Hx. destruct cut; [reflexivity|].
  now apply forward_default_cut with d0 ds.
Qed.


(** The whole forward pass with an explicit [cut]. *)
Lemma forward_returns (self : @CFConv R) (x r_ij : tensor R) (neighbors : tensor Z)
      (pairwise_mask : tensor R) (f_ij : option (tensor R)) cut B N K F Wf :
  valid_layer self F ->
  valid_input self x r_ij neighbors pairwise_mask f_ij B N K ->
  (0 <= cut)%Z -> 0 < slice_len N cut ->
  returns (filter_stage self r_ij f_ij cut) [B; slice_len N cut; K; F] Wf ->
  returns (forward self x r_ij neighbors pairwise_mask f_ij (Some cut))
          [B; slice_len N cut; out_features (f2out self)]
          (fun idx => output_value self x neighbors pairwise_mask Wf K
                                   (nth 0 idx 0) (nth 1 idx 0) (nth 2 idx 0)).
Proof.
  intros Hl Hv Hcut Hc HW. unfold forward.
  destruct (aggregated_returns self x r_ij neighbors pairwise_mask f_ij cut
                               B N K F Wf Hl Hv Hcut Hc HW)
    as (a & -> & Ha & Wa & Ga).
  cbn [bind]. eapply returns_ext.
  - apply (Dense_forward_returns (f2out self) a [B; slice_len N cut]).
    now rewrite (vl_f2out _ _ Hl).
  - intros idx Hb. cbn [app] in Hb.
    apply in_bounds3 in Hb as (b & i & o & -> & Hb & Hi & Ho).
    cbn [nth removelast last app]. unfold output_value, dense_row.
    rewrite (vl_f2out _ _ Hl).
    assert (E : forall f, In f (seq 0 F) ->
              s_mul (tget a [b; i; f]) (nth f (nth o (weight (f2out self)) []) s_zero)
              = s_mul (aggregate_value self x neighbors pairwise_mask Wf K b i f)
                      (nth f (nth o (weight (f2out self)) []) s_zero)).
    { intros f Hf. apply in_seq_lt in Hf.
      now rewrite Ga by (apply in_bounds3_intro; lia). }
    now rewrite (map_ext_in _ _ _ E).
Qed.
End ForwardReturns.

(** ** Validity of the concrete scenario *)

Module ScenarioFacts.
Import Scenario.

Lemma unit_filter_contract F t b c k g :
  shape t = [b; c; k; g] ->
  exists W, unit_filter F t = Ok W /\ shape W = [b; c; k; F] /\ wf W.
Proof.
  intros Hsh. unfold unit_filter. rewrite Hsh. eexists. split; [reflexivity|].
  split; [reflexivity | apply tbuild_wf].
Qed.

Lemma layer_valid mean : valid_layer (layer (unit_filter 5) None mean) 5.
Proof.
  constructor; try reflexivity.
  - intros t b c k g. apply unit_filter_contract.
  - intros cn Hcn. discriminate Hcn.
Qed.

(** A table whose stored entries all name an atom. *)
Lemma table_in_range (nb : tensor Z) B N K :
  shape nb = [B; N; K] -> wf nb ->
  forallb (fun v => (0 <=? v)%Z && (v <? Z.of_nat N)%Z) (data nb) = true ->
  forall idx, in_bounds [B; N; K] idx = true ->
              (0 <= tget nb idx < Z.of_nat N)%Z.
Proof.
  intros Hsh Hwf Hall idx Hb. rewrite forallb_forall in Hall.
  assert (Hin : In (tget nb idx) (data nb)).
  { unfold tget. apply nth_In. rewrite Hwf, Hsh. now apply ravel_lt. }
  specialize (Hall _ Hin). apply andb_prop in Hall as [H1 H2].
  apply Z.leb_le in H1. apply Z.ltb_lt in H2. lia.
Qed.

Lemma inputs_valid self :
  in_features (in2f self) = 4 ->
  valid_input self x r_ij neighbors pairwise_mask None 1 3 2.
Proof.
  intros Hin. constructor; try reflexivity; try lia; try exact I.
  - now rewrite Hin.
  - apply table_in_range; reflexivity.
Qed.
Lemma unit_filter_per_atom F : acts_per_atom (unit_filter F).
Proof.
  intros t m tm Hrank Hs. unfold slice1 in Hs.
  destruct (shape t) as [|d0 [|d1 [|d2 ds]]] eqn:Hsh; simpl in Hrank; try lia.
  injection Hs as <-. unfold unit_filter. rewrite Hsh. cbn [bind tbuild shape].
  change (removelast (d0 :: slice_len d1 m :: d2 :: ds))
    with (d0 :: slice_len d1 m :: removelast (d2 :: ds)).
  change (removelast (d0 :: d1 :: d2 :: ds))
    with (d0 :: d1 :: removelast (d2 :: ds)).
  cbn [app].
  apply returns_inj with (sh := d0 :: slice_len d1 m :: removelast (d2 :: ds) ++ [F])
                         (f := fun _ => 1%Z).
  - now apply returns_tbuild.
  - eapply returns_ext.
    + apply slice1_returns. reflexivity.
    + intros idx Hb. apply (tget_tbuild _ (fun _ => 1%Z)).
      eapply in_bounds_slice. exact Hb.
Qed.
End ScenarioFacts.

(** ** Properties of the layer *)

Section Properties.
Context {R : Type} `{Scalar R}.

(** C1. For inputs of consistent shapes (batch B, N atoms, K neighbour
    slots) and a truncation length that is absent or between 1 and N, the
    forward pass returns a tensor of shape (B, cut, n_out), where cut is N
    when the argument is absent. *)
Theorem forward_output_shape (self : @CFConv R) (x r_ij : tensor R)
        (neighbors : tensor Z) (pairwise_mask : tensor R)
        (f_ij : option (tensor R)) (cut : option Z) B N K F :
  valid_layer self F ->
  valid_input self x r_ij neighbors pairwise_mask f_ij B N K ->
  valid_cut N cut -> (cut_value N cut <= Z.of_nat N)%Z ->
  exists out,
    forward self x r_ij neighbors pairwise_mask f_ij cut = Ok out /\
    shape out = [B; Z.to_nat (cut_value N cut); out_features (f2out self)].
Proof.
  intros Hl Hv Hcut Hle.
  pose proof (valid_cut_value N cut Hcut) as Hnn.
  destruct Hcut as [_ Hrows]. rewrite cut_rows_value in Hrows.
  rewrite (forward_cut_value self x r_ij neighbors pairwise_mask f_ij
                             B N [in_features (in2f self)] cut (vi_x _ _ _ _ _ _ _ _ _ Hv)).
  destruct (filter_stage_returns self r_ij f_ij (cut_value N cut) B N K F Hl
                                 (vi_r _ _ _ _ _ _ _ _ _ Hv) (vi_f _ _ _ _ _ _ _ _ _ Hv))
    as (Wf & HW).
  destruct (forward_returns self x r_ij neighbors pairwise_mask f_ij _ B N K F Wf
                            Hl Hv Hnn Hrows HW) as (out & Hout & Hsh & _).
  exists out. split; [exact Hout|]. rewrite Hsh.
  rewrite slice_len_nonneg by exact Hnn. do 2 f_equal. lia.
Qed.
End Properties.

Lemma forward_output_shape_witness :
  exists out,
    forward Scenario.sum_layer Scenario.x Scenario.r_ij Scenario.neighbors
            Scenario.pairwise_mask None (Some 2%Z) = Ok out /\
    shape out = [1; 2; 3].
Proof.
  apply (forward_output_shape Scenario.sum_layer Scenario.x Scenario.r_ij
           Scenario.neighbors Scenario.pairwise_mask None (Some 2%Z) 1 3 2 5).
  - apply ScenarioFacts.layer_valid.
  - apply ScenarioFacts.inputs_valid. reflexivity.
  - split; [simpl; lia | vm_compute; lia].
  - simpl. lia.
Defined.

(** ** Truncation *)

Section Truncation.
Context {R : Type} `{Scalar R}.

Lemma slice1_beyond {A} `{Default A} (t : tensor A) d0 N ds cut :
  shape t = d0 :: N :: ds -> (Z.of_nat N <= cut)%Z ->
  slice1 t cut = slice1 t (Z.of_nat N).
Proof.
  intros Hsh Hc. unfold slice1. rewrite Hsh.
  now rewrite (slice_len_full N cut Hc), slice_len_self.
Qed.

Lemma filter_stage_beyond (self : @CFConv R) (r_ij : tensor R)
      (f_ij : option (tensor R)) cut B N K :
  shape r_ij = [B; N; K] ->
  match f_ij with
  | None => True
  | Some f => exists G, shape f = [B; N; K; G]
  end ->
  (Z.of_nat N <= cut)%Z ->
  filter_stage self r_ij f_ij cut = filter_stage self r_ij f_ij (Z.of_nat N).
Proof.
  intros Hr Hf Hc. unfold filter_stage.
  destruct (expanded_shape r_ij f_ij B N K Hr Hf) as (G & Hsh).
  rewrite (slice1_beyond _ B N [K; G] cut Hsh Hc).
  now rewrite (slice1_beyond r_ij B N [K] cut Hr Hc).
Qed.

(** The slice of a slice is the shorter slice. *)
Lemma slice1_slice1 {A} `{Default A} (t tN : tensor A) d0 N ds m :
  shape t = d0 :: N :: ds -> slice1 t (Z.of_nat N) = Ok tN ->
  slice1 tN m = slice1 t m.
Proof.
  intros Hsh HN.
  destruct (slice1_returns t d0 N ds (Z.of_nat N) Hsh) as (tN' & E & HtN & WtN & GtN).
  rewrite HN in E. injection E as <-. rewrite slice_len_self in HtN, GtN.
  apply returns_inj with (sh := d0 :: slice_len N m :: ds) (f := tget t).
  - eapply returns_ext; [apply (slice1_returns tN d0 N ds m HtN)|].
    intros idx Hb. apply GtN. eapply in_bounds_slice. exact Hb.
  - apply (slice1_returns t d0 N ds m Hsh).
Qed.

(** For networks that act per atom, the filter of a truncated call is the
    prefix of the filter of the full call. *)
Lemma filter_stage_prefix (self : @CFConv R) (r_ij : tensor R)
      (f_ij : option (tensor R)) m B N K F :
  valid_layer self F ->
  acts_per_atom (filter_network self) ->
  (forall cn, cutoff_network self = Some cn -> acts_per_atom cn) ->
  shape r_ij = [B; N; K] ->
  match f_ij with
  | None => True
  | Some f => exists G, shape f = [B; N; K; G]
  end ->
  exists WfN Wfm,
    returns (filter_stage self r_ij f_ij (Z.of_nat N)) [B; N; K; F] WfN /\
    returns (filter_stage self r_ij f_ij m) [B; slice_len N m; K; F] Wfm /\
    forall idx, in_bounds [B; slice_len N m; K; F] idx = true -> Wfm idx = WfN idx.
Proof.
  intros Hl Hfn Hcn Hr Hfs. unfold filter_stage.
  destruct (expanded_shape r_ij f_ij B N K Hr Hfs) as (G & Hsh).
  set (f' := match f_ij with None => unsqueeze_last r_ij | Some f => f end) in *.
  destruct (slice1_returns f' B N [K; G] (Z.of_nat N) Hsh) as (fN & EfN & HfN & _ & _).
  rewrite slice_len_self in HfN.
  destruct (slice1_returns f' B N [K; G] m Hsh) as (fm & Efm & Hfm & _ & _).
  rewrite EfN, Efm. cbn [bind].
  destruct (vl_filter _ _ Hl fN _ _ _ _ HfN) as (WN & EWN & HWN & WWN).
  assert (Efm' : slice1 fN m = Ok fm).
  { now rewrite (slice1_slice1 f' fN B N [K; G] m Hsh EfN). }
  pose proof (Hfn fN m fm ltac:(rewrite HfN; simpl; lia) Efm') as EWm. rewrite EWN in EWm. cbn [bind] in EWm.
  destruct (slice1_returns WN B N [K; F] m HWN) as (Wm & EWm' & HWm & WWm & GWm).
  rewrite EWm' in EWm. rewrite EWN, EWm. cbn [bind].
  destruct (cutoff_network self) as [cn|] eqn:Ecn.
  - destruct (slice1_returns r_ij B N [K] (Z.of_nat N) Hr) as (rN & ErN & HrN & _ & _).
    rewrite slice_len_self in HrN.
    destruct (slice1_returns r_ij B N [K] m Hr) as (rm & Erm & Hrm & _ & _).
    rewrite ErN, Erm. cbn [bind].
    destruct (vl_cutoff _ _ Hl cn Ecn rN) as (CN & ECN & HCN & WCN).
    rewrite HrN in HCN.
    assert (Erm' : slice1 rN m = Ok rm).
    { now rewrite (slice1_slice1 r_ij rN B N [K] m Hr ErN). }
    pose proof (Hcn cn eq_refl rN m rm ltac:(rewrite HrN; simpl; lia) Erm') as ECm. rewrite ECN in ECm. cbn [bind] in ECm.
    destruct (slice1_returns CN B N [K] m HCN) as (Cm & ECm' & HCm & WCm & GCm).
    rewrite ECm' in ECm. rewrite ECN, ECm. cbn [bind].
    exists (fun idx => s_mul (tget WN idx) (tget CN (removelast idx))),
           (fun idx => s_mul (tget WN idx) (tget CN (removelast idx))).
    split; [|split; [|reflexivity]].
    + eapply returns_ext.
      * apply (map2b_last1 s_mul WN (unsqueeze_last CN) [B; N; K] F HWN).
        simpl. now rewrite HCN.
      * intros idx Hb. apply in_bounds4 in Hb as (b & i & k & f & -> & Hb & Hi & Hk & Hf).
        cbn [removelast app]. f_equal.
        apply (tget_unsqueeze_last CN [b; i; k]). now rewrite HCN.
    + eapply returns_ext.
      * apply (map2b_last1 s_mul Wm (unsqueeze_last Cm) [B; slice_len N m; K] F HWm).
        simpl. now rewrite HCm.
      * intros idx Hb. pose proof Hb as Hb'.
        apply in_bounds4 in Hb as (b & i & k & f & -> & Hb & Hi & Hk & Hf).
        cbn [removelast app].
        rewrite (tget_unsqueeze_last Cm [b; i; k]) by now rewrite HCm.
        rewrite GWm by exact Hb'.
        rewrite GCm by (apply in_bounds3_intro; lia). reflexivity.
  - exists (tget WN), (tget WN). split; [|split; [|reflexivity]].
    + exists WN. repeat split; auto.
    + exists Wm. repeat split; auto.
Qed.

(** The output entry reads the filter at the slots of its own atom only. *)
Lemma output_value_ext (self : @CFConv R) (x : tensor R) (neighbors : tensor Z)
      (pairwise_mask : tensor R) (Wf Wf' : list nat -> R) K F b i o :
  in_features (f2out self) = F ->
  (forall k f, k < K -> f < F -> Wf [b; i; k; f] = Wf' [b; i; k; f]) ->
  output_value self x neighbors pairwise_mask Wf K b i o
  = output_value self x neighbors pairwise_mask Wf' K b i o.
Proof.
  intros HF HW. unfold output_value, dense_row. rewrite HF.
  assert (E : forall f, In f (seq 0 F) ->
            s_mul (aggregate_value self x neighbors pairwise_mask Wf K b i f)
                  (nth f (nth o (weight (f2out self)) []) s_zero)
            = s_mul (aggregate_value self x neighbors pairwise_mask Wf' K b i f)
                    (nth f (nth o (weight (f2out self)) []) s_zero)).
  { intros f Hf. apply in_seq_lt in Hf. f_equal.
    unfold aggregate_value, neighbour_sum.
    assert (E : forall k, In k (seq 0 K) ->
              s_mul (s_mul (projected self x b (Z.to_nat (tget neighbors [b; i; k])) f)
                           (Wf [b; i; k; f]))
                    (tget pairwise_mask [b; i; k])
              = s_mul (s_mul (projected self x b (Z.to_nat (tget neighbors [b; i; k])) f)
                             (Wf' [b; i; k; f]))
                      (tget pairwise_mask [b; i; k])).
    { intros k Hk. apply in_seq_lt in Hk. now rewrite HW. }
    now rewrite (map_ext_in _ _ _ E). }
  now rewrite (map_ext_in _ _ _ E).
Qed.
End Truncation.

Section TruncationProperties.
Context {R : Type} `{Scalar R}.

(** C2 (as amended). For inputs of consistent shapes, networks that act per
    atom, and every m with 1 <= m <= n_atoms, the call with [cut = m] returns
    exactly the first m rows of what the call without [cut] returns. *)
Theorem truncation_consistency (self : @CFConv R) (x r_ij : tensor R)
        (neighbors : tensor Z) (pairwise_mask : tensor R)
        (f_ij : option (tensor R)) (m : Z) B N K F :
  valid_layer self F ->
  valid_input self x r_ij neighbors pairwise_mask f_ij B N K ->
  acts_per_atom (filter_network self) ->
  (forall cn, cutoff_network self = Some cn -> acts_per_atom cn) ->
  (1 <= m <= Z.of_nat N)%Z ->
  truncation_consistent self x r_ij neighbors pairwise_mask f_ij m.
Proof.
  intros Hl Hv Hfn Hcn Hm. unfold truncation_consistent.
  pose proof (vi_x _ _ _ _ _ _ _ _ _ Hv) as Hx.
  rewrite (forward_default_cut self x r_ij neighbors pairwise_mask f_ij
                               B N [in_features (in2f self)] Hx).
  destruct (filter_stage_prefix self r_ij f_ij m B N K F Hl Hfn Hcn
              (vi_r _ _ _ _ _ _ _ _ _ Hv) (vi_f _ _ _ _ _ _ _ _ _ Hv))
    as (WfN & Wfm & HWN & HWm & HWeq).
  assert (Hrows : slice_len N m = Z.to_nat m) by (rewrite slice_len_nonneg; lia).
  assert (HWN' : returns (filter_stage self r_ij f_ij (Z.of_nat N))
                         [B; slice_len N (Z.of_nat N); K; F] WfN)
    by (rewrite slice_len_self; exact HWN).
  pose proof (forward_returns self x r_ij neighbors pairwise_mask f_ij (Z.of_nat N)
                              B N K F WfN Hl Hv ltac:(lia)
                              ltac:(rewrite slice_len_self; lia) HWN') as HN.
  pose proof (forward_returns self x r_ij neighbors pairwise_mask f_ij m
                              B N K F Wfm Hl Hv ltac:(lia) ltac:(lia) HWm) as Hm'.
  rewrite slice_len_self in HN.
  destruct HN as (full & -> & Hfull & Wfull & Gfull). cbn [bind].
  eapply returns_inj; [exact Hm'|].
  eapply returns_ext.
  - apply (slice1_returns full B N [out_features (f2out self)] m Hfull).
  - intros idx Hb. pose proof (in_bounds_slice _ _ _ _ _ Hb) as Hb'.
    rewrite Gfull by exact Hb'.
    apply in_bounds3 in Hb as (b & i & o & -> & Hb & Hi & Ho).
    cbn [nth]. symmetry.
    apply output_value_ext with (F := F); [apply (vl_f2out _ _ Hl)|].
    intros k f Hk Hf. apply HWeq. apply in_bounds4_intro; lia.
Qed.

(** C9. When [cut] exceeds the atom count, every slice keeps all atoms: the
    call succeeds, the result has min(cut, n_atoms) = n_atoms rows, and it is
    the result of the call without [cut]. *)
Theorem cut_beyond_atoms (self : @CFConv R) (x r_ij : tensor R)
        (neighbors : tensor Z) (pairwise_mask : tensor R)
        (f_ij : option (tensor R)) (cut : Z) B N K F :
  valid_layer self F ->
  valid_input self x r_ij neighbors pairwise_mask f_ij B N K ->
  0 < N -> (Z.of_nat N < cut)%Z ->
  exists out,
    forward self x r_ij neighbors pairwise_mask f_ij (Some cut) = Ok out /\
    shape out = [B; Nat.min (Z.to_nat cut) N; out_features (f2out self)] /\
    forward self x r_ij neighbors pairwise_mask f_ij None = Ok out.
Proof.
  intros Hl Hv HN Hc.
  pose proof (vi_x _ _ _ _ _ _ _ _ _ Hv) as Hx.
  pose proof (vi_r _ _ _ _ _ _ _ _ _ Hv) as Hr.
  pose proof (vi_f _ _ _ _ _ _ _ _ _ Hv) as Hf.
  rewrite (forward_default_cut self x r_ij neighbors pairwise_mask f_ij
                               B N [in_features (in2f self)] Hx).
  destruct (filter_stage_returns self r_ij f_ij (Z.of_nat N) B N K F Hl Hr Hf)
    as (Wf & HW).
  assert (Hfull : slice_len N cut = N) by (apply slice_len_full; lia).
  assert (HWc : returns (filter_stage self r_ij f_ij cut)
                        [B; slice_len N cut; K; F] Wf).
  { rewrite (filter_stage_beyond self r_ij f_ij cut B N K Hr Hf ltac:(lia)).
    rewrite Hfull. rewrite slice_len_self in HW. exact HW. }
  pose proof (forward_returns self x r_ij neighbors pairwise_mask f_ij cut
                              B N K F Wf Hl Hv ltac:(lia) ltac:(lia) HWc) as Hcut.
  pose proof (forward_returns self x r_ij neighbors pairwise_mask f_ij (Z.of_nat N)
                              B N K F Wf Hl Hv ltac:(lia)
                              ltac:(rewrite slice_len_self; lia) HW) as Hdef.
  rewrite Hfull in Hcut. rewrite slice_len_self in Hdef.
  pose proof (returns_inj _ _ _ _ Hcut Hdef) as E.
  destruct Hcut as (out & Eout & Hsh & _).
  exists out. split; [exact Eout|]. split.
  - rewrite Hsh. do 2 f_equal. lia.
  - now rewrite <- E.
Qed.
End TruncationProperties.

Section EmptyPrefix.
Context {R : Type} `{Scalar R}.

(** With [cut = 0] every valid call raises: the truncated neighbour table is
    empty and line 68 asks [view] to infer a size for it. *)
Lemma forward_empty_prefix_raises (self : @CFConv R) (x r_ij : tensor R)
      (neighbors : tensor Z) (pairwise_mask : tensor R)
      (f_ij : option (tensor R)) B N K F :
  valid_layer self F ->
  valid_input self x r_ij neighbors pairwise_mask f_ij B N K ->
  forward self x r_ij neighbors pairwise_mask f_ij (Some 0%Z) = Err ShapeMismatch.
Proof.
  intros Hl Hv. pose proof Hv as [HB HK Hx Hr Hn Hm Hfs Hidx].
  unfold forward, aggregated, convolution. cbn [resolve_cut bind].
  destruct (filter_stage_returns self r_ij f_ij 0%Z B N K F Hl Hr Hfs)
    as (Wf & W & -> & _).
  cbn [bind].
  destruct (Dense_forward_returns (in2f self) x [B; N] Hx) as (y & -> & _).
  cbn [bind]. unfold gather_stage.
  destruct (slice1_returns neighbors B N [K] 0%Z Hn) as (nc & -> & Hnc & _).
  cbn [bind].
  rewrite (size_nth _ nc 1 0) by (rewrite Hnc; unfold slice_len; simpl; f_equal; lia).
  rewrite (size_nth _ nc 2 K) by now rewrite Hnc.
  cbn [bind Nat.mul Z.of_nat]. unfold view.
  now rewrite infer_size_lead_empty.
Qed.
End EmptyPrefix.

(** C2 as stated fails at m = 0: the call without [cut] returns a tensor, the
    call with [cut = 0] raises, because the view of the empty neighbour
    table cannot infer its leading size. *)
Lemma truncation_to_zero_fails :
  ~ truncation_consistent Scenario.sum_layer Scenario.x Scenario.r_ij
      Scenario.neighbors Scenario.pairwise_mask None 0%Z.
Proof. unfold truncation_consistent. vm_compute. discriminate. Qed.

(** With a filter network that does not act per atom the truncated call and
    the prefix of the full call differ as well. *)
Lemma truncation_needs_per_atom_filter :
  ~ truncation_consistent
      (Scenario.layer (Scenario.row_count_filter 5) None false)
      Scenario.x Scenario.r_ij Scenario.neighbors Scenario.pairwise_mask None 2%Z.
Proof. unfold truncation_consistent. vm_compute. discriminate. Qed.

Lemma truncation_consistency_witness :
  truncation_consistent Scenario.sum_layer Scenario.x Scenario.r_ij
    Scenario.neighbors Scenario.pairwise_mask None 2%Z.
Proof.
  apply (truncation_consistency Scenario.sum_layer Scenario.x Scenario.r_ij
           Scenario.neighbors Scenario.pairwise_mask None 2%Z 1 3 2 5).
  - apply ScenarioFacts.layer_valid.
  - apply ScenarioFacts.inputs_valid. reflexivity.
  - apply ScenarioFacts.unit_filter_per_atom.
  - intros cn Hcn. discriminate Hcn.
  - simpl. lia.
Defined.

Lemma cut_beyond_atoms_witness :
  exists out,
    forward Scenario.sum_layer Scenario.x Scenario.r_ij Scenario.neighbors
            Scenario.pairwise_mask None (Some 7%Z) = Ok out /\
    shape out = [1; Nat.min (Z.to_nat 7) 3; 3] /\
    forward Scenario.sum_layer Scenario.x Scenario.r_ij Scenario.neighbors
            Scenario.pairwise_mask None None = Ok out.
Proof.
  apply (cut_beyond_atoms Scenario.sum_layer Scenario.x Scenario.r_ij
           Scenario.neighbors Scenario.pairwise_mask None 7%Z 1 3 2 5).
  - apply ScenarioFacts.layer_valid.
  - apply ScenarioFacts.inputs_valid. reflexivity.
  - lia.
  - simpl. lia.
Defined.

(** ** Masked aggregation inside the forward pass *)

Section AggregationProperties.
Context {R : Type} `{Scalar R}.






End AggregationProperties.

(** The scenario by value: in sum mode atom 0 adds the projected features of
    atoms 1 and 2, atom 1 keeps its one real neighbour, atom 2 has none; in
    mean mode atom 0 is divided by two. *)
Example scenario_sum_mode :
  aggregated Scenario.sum_layer Scenario.x Scenario.r_ij Scenario.neighbors
             Scenario.pairwise_mask None None
  = Ok (mkT [1; 3; 5] [14; 16; 18; 20; 68;  1; 2; 3; 4; 10;  0; 0; 0; 0; 0]%Z).
Proof. reflexivity. Qed.

Example scenario_mean_mode :
  aggregated Scenario.mean_layer Scenario.x Scenario.r_ij Scenario.neighbors
             Scenario.pairwise_mask None None
  = Ok (mkT [1; 3; 5] [7; 8; 9; 10; 34;  1; 2; 3; 4; 10;  0; 0; 0; 0; 0]%Z).
Proof. reflexivity. Qed.

Example scenario_output :
  forward Scenario.sum_layer Scenario.x Scenario.r_ij Scenario.neighbors
          Scenario.pairwise_mask None None
  = Ok (mkT [1; 3; 3] [114; 234; 388;  101; 205; 314;  100; 200; 300]%Z).
Proof. reflexivity. Qed.

(** ** Cutoff, gather, purity, failure *)

Section CutoffProperties.
Context {R : Type} `{Scalar R}.

(** A well-formed tensor is what [returns] describes by its own entries. *)
Lemma returns_self (W : tensor R) sh :
  shape W = sh -> wf W -> returns (Ok W) sh (tget W).
Proof. intros Hsh Hwf. exists W. repeat split; auto. Qed.

(** C5. With the filter network keeping its contract and distances of
    consistent shape, a cutoff network that returns 1.0 for every pair gives
    the result of the layer without cutoff network, for every call (also the
    failing ones); an element times one is the element. *)
Theorem cutoff_one_identity (self : @CFConv R) (x r_ij : tensor R)
        (neighbors : tensor Z) (pairwise_mask : tensor R)
        (f_ij : option (tensor R)) (cut : option Z) B N K F :
  (forall a, s_mul a s_one = a) ->
  (forall t b c k g,
      shape t = [b; c; k; g] ->
      exists W, filter_network self t = Ok W /\ shape W = [b; c; k; F] /\ wf W) ->
  shape r_ij = [B; N; K] ->
  match f_ij with
  | None => True
  | Some f => exists G, shape f = [B; N; K; G]
  end ->
  forward (with_cutoff self (Some ones_network)) x r_ij neighbors pairwise_mask f_ij cut
  = forward (with_cutoff self None) x r_ij neighbors pairwise_mask f_ij cut.
Proof.
  intros Hone Hfilter Hr Hfs. unfold forward, aggregated.
  cbn [with_cutoff in2f f2out agg].
  destruct (resolve_cut x cut) as [c|e]; [|reflexivity]. cbn [bind].
  assert (E : filter_stage (with_cutoff self (Some ones_network)) r_ij f_ij c
              = filter_stage (with_cutoff self None) r_ij f_ij c).
  { unfold filter_stage. cbn [with_cutoff filter_network cutoff_network].
    destruct (expanded_shape r_ij f_ij B N K Hr Hfs) as (G & Hsh).
    destruct (slice1_returns _ B N [K; G] c Hsh) as (fc & -> & Hfc & _ & _).
    cbn [bind].
    destruct (Hfilter fc _ _ _ _ Hfc) as (W & -> & HW & WW).
    cbn [bind].
    destruct (slice1_returns r_ij B N [K] c Hr) as (rc & -> & Hrc & _ & _).
    unfold ones_network. cbn [bind]. rewrite Hrc.
    apply returns_inj with (sh := [B; slice_len N c; K; F]) (f := tget W).
    - eapply returns_ext.
      + apply (map2b_last1 s_mul W _ [B; slice_len N c; K] F HW). reflexivity.
      + intros idx Hb. apply in_bounds4 in Hb as (b & i & k & f & -> & Hb & Hi & Hk & Hf).
        cbn [removelast app].
        rewrite (tget_unsqueeze_last _ [b; i; k]) by reflexivity.
        rewrite tget_tbuild by (apply in_bounds3_intro; lia).
        apply Hone.
    - now apply returns_self. }
  now rewrite E.
Qed.
End CutoffProperties.

Lemma cutoff_one_identity_witness :
  forward (with_cutoff Scenario.sum_layer (Some ones_network)) Scenario.x
          Scenario.r_ij Scenario.neighbors Scenario.pairwise_mask None (Some 2%Z)
  = forward (with_cutoff Scenario.sum_layer None) Scenario.x
            Scenario.r_ij Scenario.neighbors Scenario.pairwise_mask None (Some 2%Z).
Proof.
  refine (cutoff_one_identity Scenario.sum_layer Scenario.x Scenario.r_ij
            Scenario.neighbors Scenario.pairwise_mask None (Some 2%Z) 1 3 2 5
            _ _ _ _).
  - intros a. apply Z.mul_1_r.
  - intros t b c k g. apply ScenarioFacts.unit_filter_contract.
  - reflexivity.
  - exact I.
Defined.

Section GatherProperties.
Context {R : Type} `{Scalar R}.

(** C6. With every neighbour index in [0, n_atoms) and 1 <= cut <= n_atoms,
    the gather of lines 65-72 returns a tensor of shape
    (batch, cut, n_neighbors, n_filters) whose entry [b, i, k, :] is row
    NeighborIndices[b, i, k] of the input projection of the atom features. *)
Theorem neighbour_gather_correct (self : @CFConv R) (x : tensor R)
        (neighbors : tensor Z) (cut : Z) B N K :
  shape x = [B; N; in_features (in2f self)] ->
  shape neighbors = [B; N; K] ->
  0 < B -> 0 < K -> (1 <= cut <= Z.of_nat N)%Z ->
  (forall idx, in_bounds [B; N; K] idx = true ->
               (0 <= tget neighbors idx < Z.of_nat N)%Z) ->
  exists y g,
    Dense_forward (in2f self) x = Ok y /\
    gather_stage y neighbors cut = Ok g /\
    shape g = [B; Z.to_nat cut; K; out_features (in2f self)] /\
    forall b i k f,
      b < B -> i < Z.to_nat cut -> k < K -> f < out_features (in2f self) ->
      tget g [b; i; k; f] = tget y [b; Z.to_nat (tget neighbors [b; i; k]); f].
Proof.
  intros Hx Hn HB HK Hcut Hidx.
  destruct (Dense_forward_returns (in2f self) x [B; N] Hx) as (y & Ey & Hy & _ & _).
  cbn [app] in Hy.
  assert (Hrows : slice_len N cut = Z.to_nat cut) by (rewrite slice_len_nonneg; lia).
  destruct (gather_stage_returns y neighbors B N N K (out_features (in2f self)) cut
              Hy Hn HB HK ltac:(lia)) as (g & Eg & Hg & _ & Gg).
  { intros idx Hb. apply Hidx. eapply in_bounds_slice. exact Hb. }
  rewrite Hrows in Hg, Gg.
  exists y, g. repeat split; auto.
  intros b i k f Hb Hi Hk Hf.
  now rewrite Gg by (apply in_bounds4_intro; lia).
Qed.

End GatherProperties.

Lemma neighbour_gather_correct_witness :
  exists y g,
    Dense_forward (in2f Scenario.sum_layer) Scenario.x = Ok y /\
    gather_stage y Scenario.neighbors 2 = Ok g /\
    shape g = [1; Z.to_nat 2; 2; 5] /\
    forall b i k f,
      b < 1 -> i < Z.to_nat 2 -> k < 2 -> f < 5 ->
      tget g [b; i; k; f] = tget y [b; Z.to_nat (tget Scenario.neighbors [b; i; k]); f].
Proof.
  refine (neighbour_gather_correct Scenario.sum_layer Scenario.x Scenario.neighbors
            2%Z 1 3 2 _ _ _ _ _ _).
  - reflexivity.
  - reflexivity.
  - lia.
  - lia.
  - simpl. lia.
  - apply ScenarioFacts.table_in_range; reflexivity.
Defined.

(** With [cut = 1] only atom 0 is computed; its neighbours are atoms 1 and 2.
    Replacing the features of atom 2 changes the result. *)
Example atom_beyond_cut_contributes :
  forward Scenario.sum_layer Scenario.x Scenario.r_ij Scenario.neighbors
          Scenario.pairwise_mask None (Some 1%Z)
  = Ok (mkT [1; 1; 3] [114; 234; 388]%Z) /\
  forward Scenario.sum_layer Scenario.x_other Scenario.r_ij Scenario.neighbors
          Scenario.pairwise_mask None (Some 1%Z)
  = Ok (mkT [1; 1; 3] [105; 213; 336]%Z).
Proof. split; reflexivity. Qed.

Section Purity.
Context {R : Type} `{Scalar R} {S : Type}.

Lemma sbind_lift_state {A C} (r : result A) (k : A -> comp S C) (s : S) :
  (forall a s', snd (k a s') = s') -> snd (sbind (lift r) k s) = s.
Proof.
  intros Hk. unfold sbind, lift. destruct r as [a|e]; [apply Hk | reflexivity].
Qed.

(** With stateless networks the filter stage returns the state it got. *)
Lemma sfilter_stage_state (self : SCFConv S) (r_ij : tensor R)
      (f_ij : option (tensor R)) (cut : Z) (s : S) :
  stateless (s_filter_network self) ->
  (forall cn, s_cutoff_network self = Some cn -> stateless cn) ->
  snd (sfilter_stage self r_ij f_ij cut s) = s.
Proof.
  intros Hfn Hcn. unfold sfilter_stage.
  apply sbind_lift_state. intros fc s1. unfold sbind at 1.
  pose proof (Hfn s1 fc) as E.
  destruct (s_filter_network self s1 fc) as [[W|e] s2]; simpl in E; subst s2;
    [|reflexivity].
  destruct (s_cutoff_network self) as [cn|]; [|reflexivity].
  apply sbind_lift_state. intros rc s3. unfold sbind.
  pose proof (Hcn cn eq_refl s3 rc) as E.
  destruct (cn s3 rc) as [[C|e] s4]; simpl in E; subst s4; reflexivity.
Qed.

Lemma sforward_state (self : SCFConv S) (x r_ij : tensor R)
      (neighbors : tensor Z) (pairwise_mask : tensor R)
      (f_ij : option (tensor R)) (cut : option Z) (s : S) :
  stateless (s_filter_network self) ->
  (forall cn, s_cutoff_network self = Some cn -> stateless cn) ->
  snd (sforward self x r_ij neighbors pairwise_mask f_ij cut s) = s.
Proof.
  intros Hfn Hcn. unfold sforward.
  apply sbind_lift_state. intros c s1. unfold sbind at 1.
  pose proof (sfilter_stage_state self r_ij f_ij c s1 Hfn Hcn) as E.
  destruct (sfilter_stage self r_ij f_ij c s1) as [[W|e] s2]; simpl in E; subst s2;
    [|reflexivity].
  apply sbind_lift_state. intros y s3. reflexivity.
Qed.

(** A layer of functions, called as an object, returns what [forward]
    returns and keeps the state. *)
Lemma sforward_as_object (self : @CFConv R) (x r_ij : tensor R)
      (neighbors : tensor Z) (pairwise_mask : tensor R)
      (f_ij : option (tensor R)) (cut : option Z) (s : S) :
  sforward (as_object self) x r_ij neighbors pairwise_mask f_ij cut s
  = (forward self x r_ij neighbors pairwise_mask f_ij cut, s).
Proof.
  unfold sforward, forward, aggregated, sfilter_stage, filter_stage, sbind, lift.
  cbn [as_object s_in2f s_f2out s_filter_network s_cutoff_network s_agg].
  destruct (resolve_cut x cut) as [c|e]; [|reflexivity]. cbn [bind].
  destruct (slice1 _ c) as [fc|e]; [|reflexivity]. cbn [bind].
  destruct (filter_network self fc) as [W|e]; [|reflexivity]. cbn [bind].
  destruct (cutoff_network self) as [cn|].
  - destruct (slice1 r_ij c) as [rc|e]; [|reflexivity]. cbn [bind].
    destruct (cn rc) as [C|e]; [|reflexivity]. cbn [bind].
    destruct (map2b s_mul W (unsqueeze_last C)) as [W'|e]; [|reflexivity]. cbn [bind].
    destruct (convolution _ _ W' x neighbors pairwise_mask c); reflexivity.
  - cbn [bind].
    destruct (convolution _ _ W x neighbors pairwise_mask c); reflexivity.
Qed.

End Purity.


(** ** Further properties of the forward pass *)

Section GeneralForward.
Context {R : Type} `{Scalar R}.

(** Lines 65-75 when the features have [Nx] atoms, the pair tensors [N], and
    the table names atoms of [x] in its first [cut] rows; the rows after
    them are not constrained. *)
Lemma convolution_returns (self : @CFConv R) (W x : tensor R) (neighbors : tensor Z)
      (pairwise_mask : tensor R) cut B Nx N K F :
  out_features (in2f self) = F -> agg_axis (agg self) = 2 ->
  0 < B -> 0 < K -> (0 <= cut)%Z -> 0 < slice_len N cut ->
  shape x = [B; Nx; in_features (in2f self)] ->
  shape neighbors = [B; N; K] -> shape pairwise_mask = [B; N; K] ->
  shape W = [B; slice_len N cut; K; F] ->
  (forall idx, in_bounds [B; slice_len N cut; K] idx = true ->
               (0 <= tget neighbors idx < Z.of_nat Nx)%Z) ->
  returns (convolution (in2f self) (agg self) W x neighbors pairwise_mask cut)
          [B; slice_len N cut; F]
          (fun idx => aggregate_value self x neighbors pairwise_mask (tget W) K
                                      (nth 0 idx 0) (nth 1 idx 0) (nth 2 idx 0)).
Proof.
  intros HF Hax HB HK Hcut Hc Hx Hn Hm HWs Hidx.
  set (c := slice_len N cut) in *.
  unfold convolution.
  destruct (Dense_forward_returns (in2f self) x [B; Nx] Hx)
    as (y & -> & Hy & Wy & Gy).
  rewrite HF in Hy, Gy. cbn [app] in Hy, Gy. cbn [bind].
  destruct (gather_stage_returns y neighbors B Nx N K F cut Hy Hn HB HK Hc Hidx)
    as (g & -> & Hg & Wg & Gg).
  fold c in Hg, Gg. cbn [bind].
  destruct (slice1_returns g B c [K; F] cut Hg) as (yc & -> & Hyc & Wyc & Gyc).
  destruct (slice1_returns W B c [K; F] cut HWs) as (Wc & -> & HWc & WWc & GWc).
  unfold c in Hyc, Gyc, HWc, GWc.
  rewrite slice_len_idem in Hyc, Gyc, HWc, GWc by exact Hcut.
  fold c in Hyc, Gyc, HWc, GWc. cbn [bind].
  destruct (map2b_same s_mul yc Wc [B; c; K; F] Hyc HWc) as (p & -> & Hp & Wp & Gp).
  cbn [bind].
  destruct (slice1_returns pairwise_mask B N [K] cut Hm) as (mc & -> & Hmc & Wmc & Gmc).
  fold c in Hmc, Gmc. cbn [bind].
  eapply returns_ext.
  - apply (Aggregate_forward_returns (agg self) p mc B c K F Hax Hp Hmc).
  - intros idx Hb. apply in_bounds3 in Hb as (b & i & f & -> & Hb & Hi & Hf).
    cbn [nth]. unfold aggregate_value, neighbour_sum, neighbour_count.
    assert (Esum : forall k, In k (seq 0 K) ->
              s_mul (tget p [b; i; k; f]) (tget mc [b; i; k])
              = s_mul (s_mul (projected self x b (Z.to_nat (tget neighbors [b; i; k])) f)
                             (tget W [b; i; k; f]))
                      (tget pairwise_mask [b; i; k])).
    { intros k Hk. apply in_seq_lt in Hk.
      rewrite Gp, Gyc, GWc, Gg by (apply in_bounds4_intro; lia).
      rewrite Gmc by (apply in_bounds3_intro; lia).
      cbn [nth removelast last].
      assert (Hj : Z.to_nat (tget neighbors [b; i; k]) < Nx).
      { specialize (Hidx [b; i; k] (in_bounds3_intro B c K b i k Hb Hi Hk)). lia. }
      rewrite Gy by (apply in_bounds3_intro; lia).
      reflexivity. }
    assert (Ecnt : map (fun k => tget mc [b; i; k]) (seq 0 K)
                   = map (fun k => tget pairwise_mask [b; i; k]) (seq 0 K)).
    { apply map_ext_in. intros k Hk. apply in_seq_lt in Hk.
      apply Gmc. apply in_bounds3_intro; lia. }
    rewrite (map_ext_in _ _ _ Esum), Ecnt. reflexivity.
Qed.

(** The whole pass under the same conditions, with the filter the filter
    stage returned. *)
Lemma forward_general_returns (self : @CFConv R) (x r_ij : tensor R)
      (neighbors : tensor Z) (pairwise_mask : tensor R)
      (f_ij : option (tensor R)) cut B Nx N K F :
  valid_layer self F ->
  0 < B -> 0 < K -> (0 <= cut)%Z -> 0 < slice_len N cut ->
  shape x = [B; Nx; in_features (in2f self)] ->
  shape r_ij = [B; N; K] ->
  match f_ij with
  | None => True
  | Some f => exists G, shape f = [B; N; K; G]
  end ->
  shape neighbors = [B; N; K] -> shape pairwise_mask = [B; N; K] ->
  (forall idx, in_bounds [B; slice_len N cut; K] idx = true ->
               (0 <= tget neighbors idx < Z.of_nat Nx)%Z) ->
  exists W,
    filter_stage self r_ij f_ij cut = Ok W /\
    shape W = [B; slice_len N cut; K; F] /\
    returns (forward self x r_ij neighbors pairwise_mask f_ij (Some cut))
            [B; slice_len N cut; out_features (f2out self)]
            (fun idx => output_value self x neighbors pairwise_mask (tget W) K
                                     (nth 0 idx 0) (nth 1 idx 0) (nth 2 idx 0)).
Proof.
  intros Hl HB HK Hcut Hc Hx Hr Hfs Hn Hm Hidx.
  destruct (filter_stage_returns self r_ij f_ij cut B N K F Hl Hr Hfs)
    as (Wf & W & EW & HW & _ & _).
  exists W. split; [exact EW|]. split; [exact HW|].
  unfold forward, aggregated. cbn [resolve_cut bind]. rewrite EW. cbn [bind].
  destruct (convolution_returns self W x neighbors pairwise_mask cut B Nx N K F
              (vl_in2f _ _ Hl) (vl_axis _ _ Hl) HB HK Hcut Hc Hx Hn Hm HW Hidx)
    as (a & -> & Ha & Wa & Ga).
  cbn [bind]. eapply returns_ext.
  - apply (Dense_forward_returns (f2out self) a [B; slice_len N cut]).
    now rewrite (vl_f2out _ _ Hl).
  - intros idx Hb. cbn [app] in Hb.
    apply in_bounds3 in Hb as (b & i & o & -> & Hb & Hi & Ho).
    cbn [nth removelast last app]. unfold output_value, dense_row.
    rewrite (vl_f2out _ _ Hl).
    assert (E : forall f, In f (seq 0 F) ->
              s_mul (tget a [b; i; f]) (nth f (nth o (weight (f2out self)) []) s_zero)
              = s_mul (aggregate_value self x neighbors pairwise_mask (tget W) K b i f)
                      (nth f (nth o (weight (f2out self)) []) s_zero)).
    { intros f Hf. apply in_seq_lt in Hf.
      now rewrite Ga by (apply in_bounds3_intro; lia). }
    now rewrite (map_ext_in _ _ _ E).
Qed.

(** X1. Entry by entry: when the first [cut] rows of the neighbour table
    name atoms of [x] (the rows after them may hold anything), the call
    returns a tensor of shape (B, cut rows, n_out) whose entry [b, i, o] is
    the output projection of the aggregate over the neighbour slots k of
    in2f(x)[b, neighbors[b,i,k], f] * W[b,i,k,f] * mask[b,i,k], W being what
    the filter stage returned. *)
Theorem forward_entrywise (self : @CFConv R) (x r_ij : tensor R)
        (neighbors : tensor Z) (pairwise_mask : tensor R)
        (f_ij : option (tensor R)) cut B Nx N K F :
  valid_layer self F ->
  0 < B -> 0 < K -> (0 <= cut)%Z -> 0 < slice_len N cut ->
  shape x = [B; Nx; in_features (in2f self)] ->
  shape r_ij = [B; N; K] ->
  match f_ij with
  | None => True
  | Some f => exists G, shape f = [B; N; K; G]
  end ->
  shape neighbors = [B; N; K] -> shape pairwise_mask = [B; N; K] ->
  (forall idx, in_bounds [B; slice_len N cut; K] idx = true ->
               (0 <= tget neighbors idx < Z.of_nat Nx)%Z) ->
  exists W out,
    filter_stage self r_ij f_ij cut = Ok W /\
    forward self x r_ij neighbors pairwise_mask f_ij (Some cut) = Ok out /\
    shape out = [B; slice_len N cut; out_features (f2out self)] /\
    forall b i o,
      b < B -> i < slice_len N cut -> o < out_features (f2out self) ->
      tget out [b; i; o]
      = dense_row (f2out self)
          (fun f =>
             let S := ssum (map (fun k =>
                         s_mul (s_mul (projected self x b
                                         (Z.to_nat (tget neighbors [b; i; k])) f)
                                      (tget W [b; i; k; f]))
                               (tget pairwise_mask [b; i; k]))
                         (seq 0 K)) in
             if agg_mean (agg self)
             then s_div S (s_of_nat (Nat.max 1 (neighbour_count pairwise_mask K b i)))
             else S) o.
Proof.
  intros Hl HB HK Hcut Hc Hx Hr Hfs Hn Hm Hidx.
  destruct (forward_general_returns self x r_ij neighbors pairwise_mask f_ij cut
              B Nx N K F Hl HB HK Hcut Hc Hx Hr Hfs Hn Hm Hidx)
    as (W & EW & HW & out & Eout & Hout & _ & Gout).
  exists W, out. repeat split; auto.
  intros b i o Hb Hi Ho.
  now rewrite Gout by (apply in_bounds3_intro; lia).
Qed.
End GeneralForward.

Lemma forward_entrywise_witness :
  exists out,
    forward Scenario.sum_layer Scenario.x Scenario.r_ij
            (mkT [1; 3; 2] [1; 2; 0; 2; 99; -5]%Z)
            Scenario.pairwise_mask None (Some 2%Z) = Ok out /\
    shape out = [1; 2; 3].
Proof.
  destruct (forward_entrywise Scenario.sum_layer Scenario.x Scenario.r_ij
              (mkT [1; 3; 2] [1; 2; 0; 2; 99; -5]%Z)
              Scenario.pairwise_mask None 2%Z 1 3 3 2 5)
    as (W & out & _ & Eout & Hout & _).
  - apply ScenarioFacts.layer_valid.
  - lia.
  - lia.
  - lia.
  - vm_compute. lia.
  - reflexivity.
  - reflexivity.
  - exact I.
  - reflexivity.
  - reflexivity.
  - intros idx Hb. apply in_bounds3 in Hb as (b & i & k & -> & Hb & Hi & Hk).
    change (slice_len 3 2) with 2 in Hi.
    destruct b as [|b]; [|lia].
    destruct i as [|[|i]]; [| |lia]; destruct k as [|[|k]]; try lia;
      vm_compute; split; congruence.
  - exists out. split; [exact Eout | exact Hout].
Defined.

Section EmptyDimensions.
Context {R : Type} `{Scalar R}.

(** [view(b, c, k, -1)] cannot infer its last size when [b * c * k = 0]. *)
Lemma infer_size_last_empty b c k n :
  b * (c * k) = 0 ->
  infer_size [Z.of_nat b; Z.of_nat c; Z.of_nat k; (-1)%Z] n = Err ShapeMismatch.
Proof.
  intros Hp. unfold infer_size.
  set (sizes := [Z.of_nat b; Z.of_nat c; Z.of_nat k; (-1)%Z]).
  assert (E1 : forall m, (Z.of_nat m <? -1)%Z = false) by (intros; apply Z.ltb_ge; lia).
  assert (E2 : forall m, (Z.of_nat m =? -1)%Z = false) by (intros; apply Z.eqb_neq; lia).
  assert (Ex : existsb (fun s => (s <? -1)%Z) sizes = false).
  { unfold sizes. cbn [existsb]. rewrite !E1. reflexivity. }
  assert (Ec : count_occ Z.eq_dec sizes (-1)%Z = 1).
  { unfold sizes. cbn [count_occ].
    destruct (Z.eq_dec (-1) (-1)) as [_|N]; [|congruence].
    destruct (Z.eq_dec (Z.of_nat b) (-1)) as [E|_]; [lia|].
    destruct (Z.eq_dec (Z.of_nat c) (-1)) as [E|_]; [lia|].
    destruct (Z.eq_dec (Z.of_nat k) (-1)) as [E|_]; [lia|reflexivity]. }
  assert (Ep : prod_known sizes = 0).
  { unfold sizes, prod_known. cbn [fold_right]. rewrite !E2, !Nat2Z.id.
    change (-1 =? -1)%Z with true. cbv iota. lia. }
  rewrite Ex, Ec, Ep. reflexivity.
Qed.

(** [view(-1, m, 1)] cannot infer its first size when [m = 0]. *)
Lemma infer_size_lead_zero m n :
  m = 0 -> infer_size [(-1)%Z; Z.of_nat m; 1%Z] n = Err ShapeMismatch.
Proof. intros ->. reflexivity. Qed.

(** X2. An empty batch, an empty prefix or a table without neighbour slots
    makes the call raise: one of the two views of lines 68 and 72 has no
    size to infer for a tensor without elements. *)
Theorem forward_empty_dimension_raises (self : @CFConv R) (x r_ij : tensor R)
        (neighbors : tensor Z) (pairwise_mask : tensor R)
        (f_ij : option (tensor R)) cut B Nx N K F :
  valid_layer self F ->
  shape x = [B; Nx; in_features (in2f self)] ->
  shape r_ij = [B; N; K] ->
  match f_ij with
  | None => True
  | Some f => exists G, shape f = [B; N; K; G]
  end ->
  shape neighbors = [B; N; K] ->
  B = 0 \/ slice_len N cut = 0 \/ K = 0 ->
  forward self x r_ij neighbors pairwise_mask f_ij (Some cut) = Err ShapeMismatch.
Proof.
  intros Hl Hx Hr Hfs Hn Hempty.
  set (c := slice_len N cut) in *.
  unfold forward, aggregated, convolution. cbn [resolve_cut bind].
  destruct (filter_stage_returns self r_ij f_ij cut B N K F Hl Hr Hfs)
    as (Wf & W & -> & _).
  cbn [bind].
  destruct (Dense_forward_returns (in2f self) x [B; Nx] Hx) as (y & -> & Hy & _).
  cbn [app] in Hy. cbn [bind]. unfold gather_stage.
  destruct (slice1_returns neighbors B N [K] cut Hn) as (nc & -> & Hnc & Wnc & _).
  fold c in Hnc. cbn [bind].
  rewrite (size_nth _ nc 1 c) by now rewrite Hnc.
  rewrite (size_nth _ nc 2 K) by now rewrite Hnc.
  cbn [bind].
  destruct (Nat.eq_dec (c * K) 0) as [Hz|Hnz].
  - unfold view. now rewrite (infer_size_lead_zero (c * K) _ Hz).
  - assert (HB : B = 0) by nia. subst B.
    destruct (view_returns nc [(-1)%Z; Z.of_nat (c * K); 1%Z] [0; c * K; 1] Wnc)
      as (nv & -> & Hnv & Wnv & _).
    { rewrite Hnc. change (numel [0; c; K]) with (0 * (c * K)).
      apply infer_size_lead. lia. }
    { rewrite Hnc. reflexivity. }
    cbn [bind].
    rewrite (size_nth _ y 2 (out_features (in2f self))) by now rewrite Hy.
    cbn [bind].
    destruct (expand3_returns nv 0 (c * K) (out_features (in2f self)) Hnv)
      as (ne & -> & Hne & _).
    cbn [bind]. unfold gather at 1. rewrite Hne.
    change (numel [0; c * K; out_features (in2f self)] =? 0) with true.
    cbv iota. cbn [bind].
    rewrite (size_nth _ nc 0 0) by now rewrite Hnc.
    cbn [bind]. unfold view.
    now rewrite (infer_size_last_empty 0 c K _ eq_refl).
Qed.
End EmptyDimensions.

Lemma forward_empty_dimension_raises_witness :
  forward Scenario.sum_layer (mkT [0; 3; 4] []) (mkT [0; 3; 2] [])
          (mkT [0; 3; 2] []) (mkT [0; 3; 2] []) None (Some 3%Z)
  = Err ShapeMismatch.
Proof.
  refine (forward_empty_dimension_raises Scenario.sum_layer _ _ _ _ None 3%Z
            0 3 3 2 5 _ _ _ _ _ _).
  - apply ScenarioFacts.layer_valid.
  - reflexivity.
  - reflexivity.
  - exact I.
  - reflexivity.
  - now left.
Defined.

Section IndexOutOfRange.
Context {R : Type} `{Scalar R}.

(** One entry of a non-empty index outside the rows of the input makes
    [gather] raise. *)
Lemma gather3_index_raises {A} `{Default A} (y : tensor A) (index : tensor Z)
      B N M F v :
  shape y = [B; N; F] -> shape index = [B; M; F] ->
  In v (data index) -> (v < 0 \/ Z.of_nat N <= v)%Z -> 0 < B * (M * F) ->
  gather y 1 index = Err IndexOutOfRange.
Proof.
  intros Hy Hi Hin Hv Hpos. unfold gather. rewrite Hi, Hy.
  destruct (Nat.eqb_spec (numel [B; M; F]) 0) as [Hz|Hnz].
  { simpl in Hz. lia. }
  assert (Eshape : gather_shape_ok [B; M; F] [B; N; F] 1 = true).
  { simpl. now rewrite !Nat.leb_refl. }
  assert (Erange : forallb (fun v => (0 <=? v)%Z && (v <? Z.of_nat (nth 1 [B; N; F] 0%nat))%Z)
                           (data index) = false).
  { apply not_true_is_false. intros E.
    rewrite forallb_forall in E. specialize (E _ Hin). simpl in E.
    apply andb_prop in E as [E1 E2].
    apply Z.leb_le in E1. apply Z.ltb_lt in E2. lia. }
  rewrite Eshape, Erange. reflexivity.
Qed.

(** X3. A neighbour index that is negative or not below the atom count of
    [x], anywhere in the first [cut] rows of the table, makes the call
    raise an index error at the gather of line 71; nothing is returned. *)
Theorem forward_index_out_of_range (self : @CFConv R) (x r_ij : tensor R)
        (neighbors : tensor Z) (pairwise_mask : tensor R)
        (f_ij : option (tensor R)) cut B Nx N K F b i k :
  valid_layer self F ->
  0 < F ->
  shape x = [B; Nx; in_features (in2f self)] ->
  shape r_ij = [B; N; K] ->
  match f_ij with
  | None => True
  | Some f => exists G, shape f = [B; N; K; G]
  end ->
  shape neighbors = [B; N; K] ->
  b < B -> i < slice_len N cut -> k < K ->
  (tget neighbors [b; i; k] < 0 \/ Z.of_nat Nx <= tget neighbors [b; i; k])%Z ->
  forward self x r_ij neighbors pairwise_mask f_ij (Some cut) = Err IndexOutOfRange.
Proof.
  intros Hl HF Hx Hr Hfs Hn Hb Hi Hk Hbad.
  set (c := slice_len N cut) in *.
  unfold forward, aggregated, convolution. cbn [resolve_cut bind].
  destruct (filter_stage_returns self r_ij f_ij cut B N K F Hl Hr Hfs)
    as (Wf & W & -> & _).
  cbn [bind].
  destruct (Dense_forward_returns (in2f self) x [B; Nx] Hx) as (y & -> & Hy & _).
  rewrite (vl_in2f _ _ Hl) in Hy. cbn [app] in Hy. cbn [bind]. unfold gather_stage.
  destruct (slice1_returns neighbors B N [K] cut Hn) as (nc & -> & Hnc & Wnc & Gnc).
  fold c in Hnc, Gnc. cbn [bind].
  rewrite (size_nth _ nc 1 c) by now rewrite Hnc.
  rewrite (size_nth _ nc 2 K) by now rewrite Hnc.
  cbn [bind].
  assert (Hnum : numel (shape nc) = B * (c * K)) by (rewrite Hnc; simpl; lia).
  destruct (view_returns nc [(-1)%Z; Z.of_nat (c * K); 1%Z] [B; c * K; 1] Wnc)
    as (nv & -> & Hnv & Wnv & Gnv).
  { rewrite Hnum. apply infer_size_lead. nia. }
  { rewrite Hnum. simpl. lia. }
  cbn [bind].
  rewrite (size_nth _ y 2 F) by now rewrite Hy.
  cbn [bind].
  destruct (expand3_returns nv B (c * K) F Hnv) as (ne & -> & Hne & Wne & Gne).
  cbn [bind].
  pose proof (merged_in_bounds c K i k Hi Hk) as Hm.
  assert (Eentry : tget ne [b; i * K + k; 0] = tget neighbors [b; i; k]).
  { rewrite Gne by (apply in_bounds3_intro; lia). cbn [removelast app].
    rewrite Gnv by (apply in_bounds3_intro; lia).
    rewrite ravel_merge3, Hnc, unravel_ravel by (apply in_bounds3_intro; lia).
    apply Gnc. apply in_bounds3_intro; lia. }
  rewrite (gather3_index_raises y ne B Nx (c * K) F (tget neighbors [b; i; k]) Hy Hne);
    [reflexivity | | exact Hbad | nia].
  rewrite <- Eentry. unfold tget. apply nth_In.
  rewrite Wne, Hne. apply ravel_lt. apply in_bounds3_intro; lia.
Qed.
End IndexOutOfRange.

Lemma forward_index_out_of_range_witness :
  forward Scenario.sum_layer Scenario.x Scenario.r_ij
          (mkT [1; 3; 2] [1; 2; 0; 3; 0; 1]%Z)
          Scenario.pairwise_mask None (Some 2%Z)
  = Err IndexOutOfRange.
Proof.
  refine (forward_index_out_of_range Scenario.sum_layer Scenario.x Scenario.r_ij
            _ Scenario.pairwise_mask None 2%Z 1 3 3 2 5 0 1 1
            _ _ _ _ _ _ _ _ _ _).
  - apply ScenarioFacts.layer_valid.
  - lia.
  - reflexivity.
  - reflexivity.
  - exact I.
  - reflexivity.
  - lia.
  - vm_compute. lia.
  - lia.
  - right. vm_compute. congruence.
Defined.

Section PrefixOnly.
Context {R : Type} `{Scalar R}.

(** Tensors of one shape that agree on the first rows have the same
    slice. *)
Lemma slice1_agree {A} `{Default A} (t t' : tensor A) d0 d1 ds cut :
  shape t = d0 :: d1 :: ds -> shape t' = d0 :: d1 :: ds ->
  (forall idx, in_bounds (d0 :: slice_len d1 cut :: ds) idx = true ->
               tget t idx = tget t' idx) ->
  slice1 t cut = slice1 t' cut.
Proof.
  intros Ht Ht' Hagree.
  apply returns_inj with (sh := d0 :: slice_len d1 cut :: ds) (f := tget t').
  - eapply returns_ext; [apply (slice1_returns t d0 d1 ds cut Ht) | exact Hagree].
  - apply (slice1_returns t' d0 d1 ds cut Ht').
Qed.

Lemma slice1_unsqueeze_agree (r r' : tensor R) B N K cut :
  shape r = [B; N; K] -> shape r' = [B; N; K] ->
  (forall idx, in_bounds [B; slice_len N cut; K] idx = true ->
               tget r idx = tget r' idx) ->
  slice1 (unsqueeze_last r) cut = slice1 (unsqueeze_last r') cut.
Proof.
  intros Hr Hr' Hagree.
  apply (slice1_agree _ _ B N [K; 1] cut).
  - simpl. now rewrite Hr.
  - simpl. now rewrite Hr'.
  - intros idx Hb. apply in_bounds4 in Hb as (b & i & k & z & -> & Hb & Hi & Hk & Hz).
    assert (z = 0) by lia. subst z.
    rewrite (tget_unsqueeze_last r [b; i; k]) by now rewrite Hr.
    rewrite (tget_unsqueeze_last r' [b; i; k]) by now rewrite Hr'.
    apply Hagree. apply in_bounds3_intro; lia.
Qed.

(** X4. The call reads the distances, the expanded distances, the neighbour
    table and the mask through their first [cut] rows only: two calls on the
    same features whose pair tensors agree on these rows have the same
    outcome, whatever the layer and whatever the rows after them hold. *)
Theorem forward_ignores_rows_beyond_cut (self : @CFConv R) (x : tensor R)
        (r_ij r_ij' : tensor R) (neighbors neighbors' : tensor Z)
        (pairwise_mask pairwise_mask' : tensor R)
        (f_ij f_ij' : option (tensor R)) cut B N K :
  shape r_ij = [B; N; K] -> shape r_ij' = [B; N; K] ->
  shape neighbors = [B; N; K] -> shape neighbors' = [B; N; K] ->
  shape pairwise_mask = [B; N; K] -> shape pairwise_mask' = [B; N; K] ->
  (forall idx, in_bounds [B; slice_len N cut; K] idx = true ->
               tget r_ij idx = tget r_ij' idx /\
               tget neighbors idx = tget neighbors' idx /\
               tget pairwise_mask idx = tget pairwise_mask' idx) ->
  match f_ij, f_ij' with
  | None, None => True
  | Some f, Some f' =>
      exists G, shape f = [B; N; K; G] /\ shape f' = [B; N; K; G] /\
                forall idx, in_bounds [B; slice_len N cut; K; G] idx = true ->
                            tget f idx = tget f' idx
  | _, _ => False
  end ->
  forward self x r_ij neighbors pairwise_mask f_ij (Some cut)
  = forward self x r_ij' neighbors' pairwise_mask' f_ij' (Some cut).
Proof.
  intros Hr Hr' Hn Hn' Hm Hm' Hagree Hf.
  assert (Er : slice1 r_ij cut = slice1 r_ij' cut).
  { apply (slice1_agree _ _ B N [K] cut Hr Hr'). intros idx Hb. apply Hagree, Hb. }
  assert (En : slice1 neighbors cut = slice1 neighbors' cut).
  { apply (slice1_agree _ _ B N [K] cut Hn Hn'). intros idx Hb. apply Hagree, Hb. }
  assert (Em : slice1 pairwise_mask cut = slice1 pairwise_mask' cut).
  { apply (slice1_agree _ _ B N [K] cut Hm Hm'). intros idx Hb. apply Hagree, Hb. }
  assert (Ef : slice1 (match f_ij with None => unsqueeze_last r_ij | Some f => f end) cut
               = slice1 (match f_ij' with None => unsqueeze_last r_ij' | Some f => f end) cut).
  { destruct f_ij as [f|], f_ij' as [f'|]; try contradiction.
    - destruct Hf as (G & Hfs & Hfs' & Hfa).
      apply (slice1_agree _ _ B N [K; G] cut Hfs Hfs' Hfa).
    - apply (slice1_unsqueeze_agree _ _ B N K cut Hr Hr').
      intros idx Hb. apply Hagree, Hb. }
  unfold forward, aggregated, convolution, filter_stage, gather_stage.
  cbn [resolve_cut bind]. now rewrite Er, En, Em, Ef.
Qed.
End PrefixOnly.

(** The table and the mask of the scenario against ones that differ in the
    row of atom 2, with [cut = 2]. *)
Lemma forward_ignores_rows_beyond_cut_witness :
  forward Scenario.sum_layer Scenario.x Scenario.r_ij Scenario.neighbors
          Scenario.pairwise_mask None (Some 2%Z)
  = forward Scenario.sum_layer Scenario.x Scenario.r_ij
            (mkT [1; 3; 2] [1; 2; 0; 2; 99; -5]%Z)
            (mkT [1; 3; 2] [1; 1; 1; 0; 7; 7]%Z) None (Some 2%Z).
Proof.
  refine (forward_ignores_rows_beyond_cut Scenario.sum_layer Scenario.x
            Scenario.r_ij Scenario.r_ij Scenario.neighbors _
            Scenario.pairwise_mask _ None None 2%Z 1 3 2 _ _ _ _ _ _ _ _);
    try reflexivity; try exact I.
  intros idx Hb. apply in_bounds3 in Hb as (b & i & k & -> & Hb & Hi & Hk).
  change (slice_len 3 2) with 2 in Hi.
  destruct b as [|b]; [|lia].
  destruct i as [|[|i]]; [| |lia]; destruct k as [|[|k]]; try lia;
    repeat split; reflexivity.
Defined.

Section NegativeCut.
Context {R : Type} `{Scalar R}.

Lemma broadcast_rows_mismatch B c c' K F :
  c <> c' -> c <> 1 -> c' <> 1 ->
  broadcast_shapes [B; c; K; F] [B; c'; K; 1] = Err ShapeMismatch.
Proof.
  intros Hne H1 H1'. unfold broadcast_shapes. cbn [rev app broadcast_rev].
  rewrite broadcast_dim_one, broadcast_dim_refl. cbn [bind]. unfold broadcast_dim.
  destruct (Nat.eqb_spec c c'); [contradiction|].
  destruct (Nat.eqb_spec c 1); [contradiction|].
  destruct (Nat.eqb_spec c' 1); [contradiction|].
  reflexivity.
Qed.

(** X5. A negative [cut] is not a shorter prefix.  Line 74 slices the
    gathered tensor and the filter, already cut to n_atoms + cut rows, by
    the same [cut] again, the mask is cut once: when at least two rows are
    left after the second slice, the masked product cannot be formed and the
    call raises a shape mismatch. *)
Theorem forward_negative_cut_raises (self : @CFConv R) (x r_ij : tensor R)
        (neighbors : tensor Z) (pairwise_mask : tensor R)
        (f_ij : option (tensor R)) cut B Nx N K F :
  valid_layer self F ->
  0 < B -> 0 < K -> (cut < 0)%Z ->
  2 <= slice_len (slice_len N cut) cut ->
  shape x = [B; Nx; in_features (in2f self)] ->
  shape r_ij = [B; N; K] ->
  match f_ij with
  | None => True
  | Some f => exists G, shape f = [B; N; K; G]
  end ->
  shape neighbors = [B; N; K] -> shape pairwise_mask = [B; N; K] ->
  (forall idx, in_bounds [B; slice_len N cut; K] idx = true ->
               (0 <= tget neighbors idx < Z.of_nat Nx)%Z) ->
  forward self x r_ij neighbors pairwise_mask f_ij (Some cut) = Err ShapeMismatch.
Proof.
  intros Hl HB HK Hcut Hc2 Hx Hr Hfs Hn Hm Hidx.
  set (c := slice_len N cut) in *. set (c2 := slice_len c cut) in *.
  assert (Hlt : c2 < c).
  { unfold c2, slice_len in *. destruct (Z.ltb_spec cut 0); lia. }
  unfold forward, aggregated, convolution. cbn [resolve_cut bind].
  destruct (filter_stage_returns self r_ij f_ij cut B N K F Hl Hr Hfs)
    as (Wf & W & -> & HW & _ & _).
  fold c in HW. cbn [bind].
  destruct (Dense_forward_returns (in2f self) x [B; Nx] Hx) as (y & -> & Hy & _ & _).
  rewrite (vl_in2f _ _ Hl) in Hy. cbn [app] in Hy. cbn [bind].
  destruct (gather_stage_returns y neighbors B Nx N K F cut Hy Hn HB HK
              ltac:(fold c; lia) Hidx) as (g & -> & Hg & _ & _).
  fold c in Hg. cbn [bind].
  destruct (slice1_returns g B c [K; F] cut Hg) as (yc & -> & Hyc & _ & _).
  destruct (slice1_returns W B c [K; F] cut HW) as (Wc & -> & HWc & _ & _).
  fold c2 in Hyc, HWc. cbn [bind].
  destruct (map2b_same s_mul yc Wc [B; c2; K; F] Hyc HWc) as (p & -> & Hp & _ & _).
  cbn [bind].
  destruct (slice1_returns pairwise_mask B N [K] cut Hm) as (mc & -> & Hmc & _ & _).
  fold c in Hmc. cbn [bind].
  unfold Aggregate_forward.
  rewrite (map2b_mismatch s_mul p (unsqueeze_last mc)); [reflexivity|].
  rewrite Hp. cbn [unsqueeze_last shape]. rewrite Hmc. cbn [app].
  apply broadcast_rows_mismatch; lia.
Qed.
End NegativeCut.

(** Five atoms and [cut = -1]: four rows after the first slice, three after
    the second. *)
Lemma forward_negative_cut_raises_witness :
  forward Scenario.sum_layer
          (mkT [1; 5; 4] (repeat 1%Z 20)) (mkT [1; 5; 2] (repeat 1%Z 10))
          (mkT [1; 5; 2] (repeat 0%Z 10)) (mkT [1; 5; 2] (repeat 1%Z 10))
          None (Some (-1)%Z)
  = Err ShapeMismatch.
Proof.
  refine (forward_negative_cut_raises Scenario.sum_layer _ _ _ _ None (-1)%Z
            1 5 5 2 5 _ _ _ _ _ _ _ _ _ _ _);
    try reflexivity; try exact I; try lia.
  - apply ScenarioFacts.layer_valid.
  - vm_compute. lia.
  - intros idx Hb. pose proof (in_bounds_slice _ _ _ _ _ Hb) as Hb'.
    apply (ScenarioFacts.table_in_range _ 1 5 2); try reflexivity. exact Hb'.
Defined.

Section CutoffScaling.
Context {R : Type} `{Scalar R}.

(** X6. With a cutoff network, the filter used for pair (b, i, k) is the
    filter network's output for that pair with every one of its features
    multiplied by the one cutoff value of the pair (lines 58-62). *)
Theorem cutoff_scales_filter (self : @CFConv R) (cn : network) (r_ij : tensor R)
        (f_ij : option (tensor R)) cut B N K F :
  valid_layer self F ->
  cutoff_network self = Some cn ->
  shape r_ij = [B; N; K] ->
  match f_ij with
  | None => True
  | Some f => exists G, shape f = [B; N; K; G]
  end ->
  exists W C Wc,
    (fc <- slice1 (match f_ij with
                   | None => unsqueeze_last r_ij
                   | Some f => f
                   end) cut ;; filter_network self fc) = Ok W /\
    (rc <- slice1 r_ij cut ;; cn rc) = Ok C /\
    filter_stage self r_ij f_ij cut = Ok Wc /\
    shape Wc = [B; slice_len N cut; K; F] /\
    forall b i k f,
      b < B -> i < slice_len N cut -> k < K -> f < F ->
      tget Wc [b; i; k; f] = s_mul (tget W [b; i; k; f]) (tget C [b; i; k]).
Proof.
  intros Hl Ecn Hr Hfs. unfold filter_stage. rewrite Ecn.
  destruct (expanded_shape r_ij f_ij B N K Hr Hfs) as (G & Hsh).
  destruct (slice1_returns _ B N [K; G] cut Hsh) as (fc & -> & Hfc & _ & _).
  cbn [bind].
  destruct (vl_filter _ _ Hl fc _ _ _ _ Hfc) as (W & -> & HW & WW).
  cbn [bind].
  destruct (slice1_returns r_ij B N [K] cut Hr) as (rc & -> & Hrc & _ & _).
  cbn [bind].
  destruct (vl_cutoff _ _ Hl cn Ecn rc) as (C & -> & HC & WC).
  rewrite Hrc in HC. cbn [bind].
  destruct (map2b_last1 s_mul W (unsqueeze_last C) [B; slice_len N cut; K] F HW)
    as (Wc & EWc & HWc & _ & GWc).
  { simpl. now rewrite HC. }
  exists W, C, Wc. repeat split; auto.
  intros b i k f Hb Hi Hk Hf.
  rewrite GWc by (apply in_bounds4_intro; lia). cbn [removelast app]. f_equal.
  apply (tget_unsqueeze_last C [b; i; k]). now rewrite HC.
Qed.

End CutoffScaling.

Section DefaultCut.
Context {R : Type} `{Scalar R}.

(** X7. Without [cut] the atom count of the features is the truncation
    length, and every pair tensor is cut to it: with features for [Nx]
    atoms and pair tensors for [N], the call returns min(N, Nx) rows, and
    only these rows of the table have to name atoms of [x]. *)
Theorem forward_default_cut_rows (self : @CFConv R) (x r_ij : tensor R)
        (neighbors : tensor Z) (pairwise_mask : tensor R)
        (f_ij : option (tensor R)) B Nx N K F :
  valid_layer self F ->
  0 < B -> 0 < K -> 0 < Nat.min N Nx ->
  shape x = [B; Nx; in_features (in2f self)] ->
  shape r_ij = [B; N; K] ->
  match f_ij with
  | None => True
  | Some f => exists G, shape f = [B; N; K; G]
  end ->
  shape neighbors = [B; N; K] -> shape pairwise_mask = [B; N; K] ->
  (forall idx, in_bounds [B; Nat.min N Nx; K] idx = true ->
               (0 <= tget neighbors idx < Z.of_nat Nx)%Z) ->
  exists out,
    forward self x r_ij neighbors pairwise_mask f_ij None = Ok out /\
    shape out = [B; Nat.min N Nx; out_features (f2out self)].
Proof.
  intros Hl HB HK Hrows Hx Hr Hfs Hn Hm Hidx.
  rewrite (forward_default_cut self x r_ij neighbors pairwise_mask f_ij
             B Nx [in_features (in2f self)] Hx).
  assert (Hc : slice_len N (Z.of_nat Nx) = Nat.min N Nx).
  { rewrite slice_len_nonneg by lia. now rewrite Nat2Z.id. }
  rewrite <- Hc in Hidx, Hrows.
  destruct (forward_general_returns self x r_ij neighbors pairwise_mask f_ij
              (Z.of_nat Nx) B Nx N K F Hl HB HK ltac:(lia) Hrows Hx Hr Hfs Hn Hm Hidx)
    as (W & _ & _ & out & Eout & Hout & _).
  exists out. split; [exact Eout|]. now rewrite <- Hc.
Qed.
End DefaultCut.

(** The scenario with the distance itself as cutoff value. *)
Lemma cutoff_scales_filter_witness :
  exists Wc,
    filter_stage
      (Scenario.layer (Scenario.unit_filter 5)
                      (Some (fun t => Ok (tbuild (shape t) (tget t)))) false)
      Scenario.r_ij None 2%Z = Ok Wc /\
    shape Wc = [1; 2; 2; 5] /\
    tget Wc [0; 1; 1; 4] = 3%Z.
Proof.
  destruct (cutoff_scales_filter
              (Scenario.layer (Scenario.unit_filter 5)
                              (Some (fun t => Ok (tbuild (shape t) (tget t)))) false)
              (fun t => Ok (tbuild (shape t) (tget t)))
              Scenario.r_ij None 2%Z 1 3 2 5)
    as (W & C & Wc & EW & EC & EWc & HWc & GWc).
  - constructor; try reflexivity.
    + intros t b c k g. apply ScenarioFacts.unit_filter_contract.
    + intros cn Hcn t. injection Hcn as <-. eexists. split; [reflexivity|].
      split; [reflexivity | apply tbuild_wf].
  - reflexivity.
  - reflexivity.
  - exact I.
  - exists Wc. split; [exact EWc|]. split; [exact HWc|].
    assert (Hrow : 1 < slice_len 3 2) by (vm_compute; lia).
    rewrite (GWc 0 1 1 4 ltac:(lia) Hrow ltac:(lia) ltac:(lia)).
    injection EW as <-. injection EC as <-. reflexivity.
Defined.

(** Features for four atoms, pair tensors for three. *)
Lemma forward_default_cut_rows_witness :
  exists out,
    forward Scenario.sum_layer (mkT [1; 4; 4] (repeat 1%Z 16)) Scenario.r_ij
            Scenario.neighbors Scenario.pairwise_mask None None = Ok out /\
    shape out = [1; 3; 3].
Proof.
  refine (forward_default_cut_rows Scenario.sum_layer _ Scenario.r_ij
            Scenario.neighbors Scenario.pairwise_mask None 1 4 3 2 5
            _ _ _ _ _ _ _ _ _ _);
    try reflexivity; try exact I; try lia.
  - apply ScenarioFacts.layer_valid.
  - intros idx Hb.
    pose proof (ScenarioFacts.table_in_range Scenario.neighbors 1 3 2
                  eq_refl eq_refl eq_refl idx Hb). lia.
Defined.

Section FeatureLocality.
Context {R : Type} `{Scalar R}.

Lemma dense_row_ext (d : @Dense R) (g g' : nat -> R) o :
  (forall i, i < in_features d -> g i = g' i) ->
  dense_row d g o = dense_row d g' o.
Proof.
  intros Hg. unfold dense_row.
  assert (E : forall i, In i (seq 0 (in_features d)) ->
            s_mul (g i) (nth i (nth o (weight d) []) s_zero)
            = s_mul (g' i) (nth i (nth o (weight d) []) s_zero)).
  { intros i Hi. apply in_seq_lt in Hi. now rewrite Hg. }
  now rewrite (map_ext_in _ _ _ E).
Qed.

(** X8. Of the features, the call reads the atoms that the first [cut]
    rows of the neighbour table name, and no others: two feature tensors of
    one shape that agree on every atom named there give the same result. *)
Theorem forward_reads_named_atoms_only (self : @CFConv R) (x x' r_ij : tensor R)
        (neighbors : tensor Z) (pairwise_mask : tensor R)
        (f_ij : option (tensor R)) cut B Nx N K F :
  valid_layer self F ->
  0 < B -> 0 < K -> (0 <= cut)%Z -> 0 < slice_len N cut ->
  shape x = [B; Nx; in_features (in2f self)] ->
  shape x' = [B; Nx; in_features (in2f self)] ->
  shape r_ij = [B; N; K] ->
  match f_ij with
  | None => True
  | Some f => exists G, shape f = [B; N; K; G]
  end ->
  shape neighbors = [B; N; K] -> shape pairwise_mask = [B; N; K] ->
  (forall idx, in_bounds [B; slice_len N cut; K] idx = true ->
               (0 <= tget neighbors idx < Z.of_nat Nx)%Z) ->
  (forall b i k m,
      b < B -> i < slice_len N cut -> k < K -> m < in_features (in2f self) ->
      tget x [b; Z.to_nat (tget neighbors [b; i; k]); m]
      = tget x' [b; Z.to_nat (tget neighbors [b; i; k]); m]) ->
  forward self x r_ij neighbors pairwise_mask f_ij (Some cut)
  = forward self x' r_ij neighbors pairwise_mask f_ij (Some cut).
Proof.
  intros Hl HB HK Hcut Hc Hx Hx' Hr Hfs Hn Hm Hidx Hagree.
  destruct (forward_general_returns self x r_ij neighbors pairwise_mask f_ij cut
              B Nx N K F Hl HB HK Hcut Hc Hx Hr Hfs Hn Hm Hidx)
    as (W & EW & _ & Hret).
  destruct (forward_general_returns self x' r_ij neighbors pairwise_mask f_ij cut
              B Nx N K F Hl HB HK Hcut Hc Hx' Hr Hfs Hn Hm Hidx)
    as (W' & EW' & _ & Hret').
  rewrite EW in EW'. injection EW' as <-.
  eapply returns_inj; [exact Hret|].
  eapply returns_ext; [exact Hret'|].
  intros idx Hb. apply in_bounds3 in Hb as (b & i & o & -> & Hb & Hi & Ho).
  cbn [nth]. unfold output_value. apply dense_row_ext. intros f Hf.
  unfold aggregate_value, neighbour_sum. 
  assert (E : forall k, In k (seq 0 K) ->
            s_mul (s_mul (projected self x' b (Z.to_nat (tget neighbors [b; i; k])) f)
                         (tget W [b; i; k; f]))
                  (tget pairwise_mask [b; i; k])
            = s_mul (s_mul (projected self x b (Z.to_nat (tget neighbors [b; i; k])) f)
                           (tget W [b; i; k; f]))
                    (tget pairwise_mask [b; i; k])).
  { intros k Hk. apply in_seq_lt in Hk. do 2 f_equal.
    unfold projected. apply dense_row_ext. intros m Hm'.
    symmetry. now apply Hagree. }
  now rewrite (map_ext_in _ _ _ E).
Qed.
End FeatureLocality.

(** With [cut = 1] atom 0 is computed from atoms 1 and 2; the features of
    atom 0 itself are replaced. *)
Lemma forward_reads_named_atoms_only_witness :
  forward Scenario.sum_layer Scenario.x Scenario.r_ij Scenario.neighbors
          Scenario.pairwise_mask None (Some 1%Z)
  = forward Scenario.sum_layer
            (mkT [1; 3; 4] [40; 30; 20; 10;  5; 6; 7; 8;  9; 10; 11; 12]%Z)
            Scenario.r_ij Scenario.neighbors Scenario.pairwise_mask None (Some 1%Z).
Proof.
  refine (forward_reads_named_atoms_only Scenario.sum_layer Scenario.x _
            Scenario.r_ij Scenario.neighbors Scenario.pairwise_mask None 1%Z
            1 3 3 2 5 _ _ _ _ _ _ _ _ _ _ _ _ _);
    try reflexivity; try exact I; try lia.
  - apply ScenarioFacts.layer_valid.
  - vm_compute. lia.
  - intros idx Hb. pose proof (in_bounds_slice _ _ _ _ _ Hb) as Hb'.
    apply (ScenarioFacts.table_in_range _ 1 3 2); try reflexivity. exact Hb'.
  - intros b i k m Hb Hi Hk Hm.
    change (slice_len 3 1) with 1 in Hi. change (in_features _) with 4 in Hm.
    destruct b as [|b]; [|lia]. destruct i as [|i]; [|lia].
    destruct k as [|[|k]]; [| |lia];
      (destruct m as [|[|[|[|m]]]]; [reflexivity..|lia]).
Defined.

Section Construction.
Context {R : Type} `{Scalar R}.

(** X9. A layer built by [__init__] with the default axis has matching
    widths inside: whatever the weights, with networks that keep their shape
    contracts, a call on inputs of consistent shapes with [n_in] features
    returns a tensor of shape (B, cut rows, n_out). *)
Theorem constructed_layer_forward_shape (n_in n_filters n_out : nat)
        (filter : network) (cutoff : option network)
        (activation : option (R -> R)) (normalize_filter : bool)
        (w_in2f w_f2out : list (list R)) (b_f2out : list R)
        (x r_ij : tensor R) (neighbors : tensor Z) (pairwise_mask : tensor R)
        (f_ij : option (tensor R)) cut B N K :
  (forall t b c k g,
      shape t = [b; c; k; g] ->
      exists W, filter t = Ok W /\ shape W = [b; c; k; n_filters] /\ wf W) ->
  (forall cn, cutoff = Some cn ->
              forall t, exists C, cn t = Ok C /\ shape C = shape t /\ wf C) ->
  0 < B -> 0 < K -> (0 <= cut)%Z -> 0 < slice_len N cut ->
  shape x = [B; N; n_in] ->
  shape r_ij = [B; N; K] ->
  match f_ij with
  | None => True
  | Some f => exists G, shape f = [B; N; K; G]
  end ->
  shape neighbors = [B; N; K] -> shape pairwise_mask = [B; N; K] ->
  (forall idx, in_bounds [B; slice_len N cut; K] idx = true ->
               (0 <= tget neighbors idx < Z.of_nat N)%Z) ->
  exists out,
    forward (CFConv_init n_in n_filters n_out filter cutoff activation
                         normalize_filter 2 w_in2f w_f2out b_f2out)
            x r_ij neighbors pairwise_mask f_ij (Some cut) = Ok out /\
    shape out = [B; slice_len N cut; n_out].
Proof.
  intros Hfilter Hcutoff HB HK Hcut Hc Hx Hr Hfs Hn Hm Hidx.
  set (self := CFConv_init n_in n_filters n_out filter cutoff activation
                           normalize_filter 2 w_in2f w_f2out b_f2out).
  assert (Hl : valid_layer self n_filters).
  { constructor; try reflexivity; assumption. }
  destruct (forward_general_returns self x r_ij neighbors pairwise_mask f_ij cut
              B N N K n_filters Hl HB HK Hcut Hc Hx Hr Hfs Hn Hm Hidx)
    as (W & _ & _ & out & Eout & Hout & _).
  exists out. split; [exact Eout | exact Hout].
Qed.
End Construction.

Lemma constructed_layer_forward_shape_witness :
  exists out,
    forward (CFConv_init 4 5 3 (Scenario.unit_filter 5) (Some ones_network) None true 2
                         Scenario.w_in2f Scenario.w_f2out Scenario.b_f2out)
            Scenario.x Scenario.r_ij Scenario.neighbors Scenario.pairwise_mask
            None (Some 2%Z) = Ok out /\
    shape out = [1; slice_len 3 2; 3].
Proof.
  refine (constructed_layer_forward_shape 4 5 3 (Scenario.unit_filter 5)
            (Some ones_network) None true Scenario.w_in2f Scenario.w_f2out
            Scenario.b_f2out Scenario.x Scenario.r_ij Scenario.neighbors
            Scenario.pairwise_mask None 2%Z 1 3 2 _ _ _ _ _ _ _ _ _ _ _ _);
    try reflexivity; try exact I; try lia.
  - intros t b c k g. apply ScenarioFacts.unit_filter_contract.
  - intros cn Hcn t. injection Hcn as <-. eexists. split; [reflexivity|].
    split; [reflexivity | apply tbuild_wf].
  - vm_compute. lia.
  - intros idx Hb. pose proof (in_bounds_slice _ _ _ _ _ Hb) as Hb'.
    apply (ScenarioFacts.table_in_range _ 1 3 2); try reflexivity. exact Hb'.
Defined.

(** ** Aggregation on floating-point rows *)

Module FloatScenarioFacts.
Import FloatScenario.



End FloatScenarioFacts.

Section FiniteRows.
Context {R : Type} `{Scalar R}.





End FiniteRows.





(** ** Successive calls *)

Section SuccessiveCalls.
Context {R : Type} `{Scalar R} {S : Type}.


End SuccessiveCalls.



(** ** Shapes that truncation and broadcasting do not reconcile *)

Section ShapeClash.
Context {R : Type} `{Scalar R}.





End ShapeClash.


(** An extent of 1 is broadcast, not reported: a mask with one neighbour
    slot against a table with two is applied to both slots, and the call
    returns a tensor. *)
Lemma size_one_mismatch_not_detected :
  shape Scenario.mask_one_slot = [1; 3; 1] /\
  shape Scenario.neighbors = [1; 3; 2] /\
  forward Scenario.sum_layer Scenario.x Scenario.r_ij Scenario.neighbors
          Scenario.mask_one_slot None None
  = Ok (mkT [1; 3; 3] [114; 234; 388;  110; 226; 368;  100; 200; 300]%Z).
Proof. repeat split. Qed.

(** ** Atoms beyond the truncation *)

Section BeyondCut.
Context {R : Type} `{Scalar R}.

(** C10. The input projection covers all [N] atoms before any truncation:
    with [1 <= cut < N] and table entries anywhere in [0, N), the call
    returns, and its output entry [b, i, o] is the output projection of the
    aggregate over the slots k of y[b, neighbors[b,i,k], f] * W[b,i,k,f] *
    mask[b,i,k], where y is the projection of the features of all [N] atoms:
    a row of y at a position [>= cut] that the table names enters the output
    as it stands. *)
Theorem atoms_beyond_cut_reach_output (self : @CFConv R) (x r_ij : tensor R)
        (neighbors : tensor Z) (pairwise_mask : tensor R)
        (f_ij : option (tensor R)) (cut : Z) B N K F :
  valid_layer self F ->
  valid_input self x r_ij neighbors pairwise_mask f_ij B N K ->
  (1 <= cut < Z.of_nat N)%Z ->
  exists W y out,
    filter_stage self r_ij f_ij cut = Ok W /\
    Dense_forward (in2f self) x = Ok y /\
    shape y = [B; N; F] /\
    (forall b j f, b < B -> j < N -> f < F ->
                   tget y [b; j; f] = projected self x b j f) /\
    forward self x r_ij neighbors pairwise_mask f_ij (Some cut) = Ok out /\
    shape out = [B; Z.to_nat cut; out_features (f2out self)] /\
    forall b i o, b < B -> i < Z.to_nat cut -> o < out_features (f2out self) ->
      tget out [b; i; o]
      = dense_row (f2out self)
          (fun f =>
             let S := ssum (map (fun k =>
                         s_mul (s_mul (tget y [b; Z.to_nat (tget neighbors [b; i; k]); f])
                                      (tget W [b; i; k; f]))
                               (tget pairwise_mask [b; i; k]))
                       (seq 0 K)) in
             if agg_mean (agg self)
             then s_div S (s_of_nat (Nat.max 1 (neighbour_count pairwise_mask K b i)))
             else S) o.
Proof.
  intros Hl Hv Hcut.
  destruct Hv as [HB HK Hx Hr Hn Hm Hfs Hidx].
  assert (Hlen : slice_len N cut = Z.to_nat cut)
    by (rewrite slice_len_nonneg by lia; lia).
  assert (Hc : 0 < slice_len N cut) by lia.
  assert (Hidx' : forall idx, in_bounds [B; slice_len N cut; K] idx = true ->
                    (0 <= tget neighbors idx < Z.of_nat N)%Z).
  { intros idx Hb. apply Hidx. now apply in_bounds_slice with cut. }
  destruct (forward_general_returns self x r_ij neighbors pairwise_mask f_ij cut
              B N N K F Hl HB HK ltac:(lia) Hc Hx Hr Hfs Hn Hm Hidx')
    as (W & EW & HW & out & Eout & Hout & _ & Gout).
  destruct (Dense_forward_returns (in2f self) x [B; N] Hx) as (y & Ey & Hy & _ & Gy).
  rewrite (vl_in2f _ _ Hl) in Hy, Gy. cbn [app] in Hy, Gy.
  assert (Gy' : forall b j f, b < B -> j < N -> f < F ->
                  tget y [b; j; f] = projected self x b j f).
  { intros b j f Hb Hj Hf. rewrite Gy by (apply in_bounds3_intro; lia).
    reflexivity. }
  exists W, y, out.
  split; [exact EW|]. split; [exact Ey|]. split; [exact Hy|]. split; [exact Gy'|].
  split; [exact Eout|]. split; [now rewrite Hout, Hlen|].
  intros b i o Hb Hi Ho.
  rewrite Gout by (apply in_bounds3_intro; lia).
  cbn [nth]. unfold output_value. apply dense_row_ext.
  intros f Hf. rewrite (vl_f2out _ _ Hl) in Hf.
  unfold aggregate_value, neighbour_sum. cbv zeta.
  assert (E : forall k, In k (seq 0 K) ->
            s_mul (s_mul (projected self x b (Z.to_nat (tget neighbors [b; i; k])) f)
                         (tget W [b; i; k; f]))
                  (tget pairwise_mask [b; i; k])
            = s_mul (s_mul (tget y [b; Z.to_nat (tget neighbors [b; i; k]); f])
                           (tget W [b; i; k; f]))
                    (tget pairwise_mask [b; i; k])).
  { intros k Hk. apply in_seq_lt in Hk.
    assert (Hj : Z.to_nat (tget neighbors [b; i; k]) < N).
    { specialize (Hidx [b; i; k] (in_bounds3_intro B N K b i k Hb ltac:(lia) Hk)). lia. }
    now rewrite Gy'. }
  now rewrite (map_ext_in _ _ _ E).
Qed.
End BeyondCut.

(** With [cut = 1] only atom 0 is computed, and both its neighbours, atoms
    1 and 2, lie beyond the truncation. *)
Lemma atoms_beyond_cut_reach_output_witness :
  exists W y out,
    filter_stage Scenario.sum_layer Scenario.r_ij None 1 = Ok W /\
    Dense_forward (in2f Scenario.sum_layer) Scenario.x = Ok y /\
    shape y = [1; 3; 5] /\
    (forall b j f, b < 1 -> j < 3 -> f < 5 ->
                   tget y [b; j; f] = projected Scenario.sum_layer Scenario.x b j f) /\
    forward Scenario.sum_layer Scenario.x Scenario.r_ij Scenario.neighbors
            Scenario.pairwise_mask None (Some 1%Z) = Ok out /\
    shape out = [1; 1; 3] /\
    forall b i o, b < 1 -> i < 1 -> o < 3 ->
      tget out [b; i; o]
      = dense_row (f2out Scenario.sum_layer)
          (fun f =>
             ssum (map (fun k =>
                     (tget y [b; Z.to_nat (tget Scenario.neighbors [b; i; k]); f]
                      * tget W [b; i; k; f]
                      * tget Scenario.pairwise_mask [b; i; k])%Z)
                   (seq 0 2))) o.
Proof.
  refine (atoms_beyond_cut_reach_output Scenario.sum_layer Scenario.x Scenario.r_ij
            Scenario.neighbors Scenario.pairwise_mask None 1%Z 1 3 2 5 _ _ _).
  - apply ScenarioFacts.layer_valid.
  - apply ScenarioFacts.inputs_valid. reflexivity.
  - lia.
Defined.
